(** * perfect_job_scraper: the aggregation pipeline of [PerfectJobScraper]

    A shallow embedding of the core of [perfect_job_scraper.py]: the salary
    normaliser ([parse_salary_to_number], [_extract_number]), the collection
    orchestrator ([scrape_all_sources]), the relevance scorer
    ([calculate_relevance_score]), the AI scoring and ranking stages
    ([ai_enhanced_relevance_scoring], [ai_enhanced_job_ranking]) and the
    pipeline [process_and_rank_jobs].

    Modelling conventions.
    - A Python [str] is a [string] of bytes holding its UTF-8 encoding.
      [str.lower], [str.upper], [str.strip] and the regex class [\d] are
      modelled on the ASCII range; the en and em dash of the range pattern
      are their three-byte encodings.
    - Python numbers: [int] is [Z]; [float] is modelled by exact rationals
      [Q], compared with [==].
    - A pandas frame is the list of its rows in frame order; a column that a
      frame may lack is an [option] field of the row.
    - [DataFrame.sort_values(col, ascending=False)] is modelled as the
      descending sort that keeps rows with equal keys in frame order. *)

From Stdlib Require Import Ascii QArith.
From stdpp Require Import gmap strings list sorting.

Local Open Scope Z_scope.

(** ** Text primitives *)

Module Text.

Definition code (c : ascii) : N := Ascii.N_of_ascii c.

Definition is_digit (c : ascii) : bool :=
  ((48 <=? code c) && (code c <=? 57))%N.

(** The ASCII characters for which [str.isspace] holds. *)
Definition is_space (c : ascii) : bool :=
  (((9 <=? code c) && (code c <=? 13)) ||
   ((28 <=? code c) && (code c <=? 32)))%N.

Definition lower_ascii (c : ascii) : ascii :=
  if ((65 <=? code c) && (code c <=? 90))%N
  then Ascii.ascii_of_N (code c + 32) else c.

Definition upper_ascii (c : ascii) : ascii :=
  if ((97 <=? code c) && (code c <=? 122))%N
  then Ascii.ascii_of_N (code c - 32) else c.

Fixpoint smap (f : ascii → ascii) (s : string) : string :=
  match s with
  | EmptyString => EmptyString
  | String c s' => String (f c) (smap f s')
  end.

(** [s.lower()] and [s.upper()]. *)
Definition lower : string → string := smap lower_ascii.
Definition upper : string → string := smap upper_ascii.

(** [s.lstrip()], [s.rstrip()] and [s.strip()]. *)
Fixpoint lstrip (s : string) : string :=
  match s with
  | EmptyString => EmptyString
  | String c s' => if is_space c then lstrip s' else s
  end.

Fixpoint rstrip (s : string) : string :=
  match s with
  | EmptyString => EmptyString
  | String c s' =>
      match rstrip s' with
      | EmptyString => if is_space c then EmptyString else String c EmptyString
      | t => String c t
      end
  end.

Definition strip (s : string) : string := rstrip (lstrip s).

(** [s.startswith(p)], returning the remainder after the prefix. *)
Fixpoint strip_prefix (p s : string) : option string :=
  match p, s with
  | EmptyString, _ => Some s
  | String a p', String b s' =>
      if Ascii.eqb a b then strip_prefix p' s' else None
  | String _ _, EmptyString => None
  end.

(** [sub in s]. *)
Fixpoint contains (sub s : string) : bool :=
  match strip_prefix sub s with
  | Some _ => true
  | None =>
      match s with
      | EmptyString => false
      | String _ s' => contains sub s'
      end
  end.

(** [any(t in s for t in terms)]. *)
Definition any_in (terms : list string) (s : string) : bool :=
  existsb (λ t, contains t s) terms.

(** [s.replace(c, '')] for a single character [c]. *)
Fixpoint remove_char (c : ascii) (s : string) : string :=
  match s with
  | EmptyString => EmptyString
  | String a s' =>
      if Ascii.eqb a c then remove_char c s' else String a (remove_char c s')
  end.

(** [s.replace(p, '')] for a non-empty pattern: occurrences are removed
    left to right without overlap.  [fuel] bounds the number of steps and
    [String.length s] always suffices. *)
Fixpoint remove_sub_go (fuel : nat) (p s : string) : string :=
  match fuel with
  | O => s
  | S fuel' =>
      match strip_prefix p s with
      | Some rest => remove_sub_go fuel' p rest
      | None =>
          match s with
          | EmptyString => EmptyString
          | String a s' => String a (remove_sub_go fuel' p s')
          end
      end
  end.

Definition remove_sub (p s : string) : string :=
  remove_sub_go (S (String.length s)) p s.

(** [s.split(',')]. *)
Fixpoint split_on (c : ascii) (s : string) : list string :=
  match s with
  | EmptyString => [EmptyString]
  | String a s' =>
      if Ascii.eqb a c then EmptyString :: split_on c s'
      else match split_on c s' with
           | [] => [String a EmptyString]
           | w :: ws => String a w :: ws
           end
  end.

(** The maximal run of digits at the head of [s], and what follows it. *)
Fixpoint span_digits (s : string) : string * string :=
  match s with
  | EmptyString => (EmptyString, EmptyString)
  | String c s' =>
      if is_digit c
      then let '(d, r) := span_digits s' in (String c d, r)
      else (EmptyString, s)
  end.

Definition digit_val (c : ascii) : Z := Z.of_N (code c - 48).

(** Value of a digit string read in base ten, with accumulator. *)
Fixpoint digits_val (acc : Z) (s : string) : Z :=
  match s with
  | EmptyString => acc
  | String c s' => digits_val (10 * acc + digit_val c) s'
  end.

Fixpoint all_digits (s : string) : bool :=
  match s with
  | EmptyString => true
  | String c s' => is_digit c && all_digits s'
  end.

Fixpoint has_digit (s : string) : bool :=
  match s with
  | EmptyString => false
  | String c s' => is_digit c || has_digit s'
  end.

End Text.

(** ** Salary normaliser: [parse_salary_to_number] and [_extract_number] *)

Module Salary.
Import Text.

(* An exception raised inside a [try] block is [None]; the statements of
   the block are sequenced with the [option] monad. *)

Fixpoint pow10 (n : nat) : positive :=
  match n with
  | O => 1%positive
  | S n' => (10 * pow10 n')%positive
  end.

(** [float(g)] on a plain decimal literal [digits] or [digits.digits];
    any other text is the [ValueError] case. *)
Definition float_of (g : string) : option Q :=
  let '(i, r) := span_digits g in
  match i, r with
  | EmptyString, _ => None
  | _, EmptyString => Some (inject_Z (digits_val 0 i))
  | _, String c f =>
      if Ascii.eqb c "." && all_digits f
      then Some (Qmake (digits_val (digits_val 0 i) f) (pow10 (String.length f)))
      else None
  end.

(** The pattern [(\d+(?:\.\d+)?)] anchored at the head of [s]: the text of
    group 1 under greedy matching, and the text after the match. *)
Definition number_at (s : string) : option (string * string) :=
  let '(i, r) := span_digits s in
  match i with
  | EmptyString => None
  | _ =>
      match r with
      | String c r' =>
          let '(f, r'') := span_digits r' in
          if Ascii.eqb c "." && negb (String.eqb f EmptyString)
          then Some (i +:+ String c f, r'')
          else Some (i, r)
      | EmptyString => Some (i, r)
      end
  end.

(** The pattern [(\d+(?:\.\d+)?)k] anchored at the head of [s].  Only the
    greedy match of group 1 can be followed by [k]: every shorter
    alternative of [\d+] or of the fraction is followed by a digit, and
    skipping a present fraction leaves a dot. *)
Definition number_k_at (s : string) : option string :=
  match number_at s with
  | Some (g, String c _) => if Ascii.eqb c "k" then Some g else None
  | _ => None
  end.

(** [re.search] tries the anchored pattern at each position from the left;
    the result is [match.group(1)]. *)
Fixpoint search_number (s : string) : option string :=
  match number_at s with
  | Some (g, _) => Some g
  | None =>
      match s with
      | EmptyString => None
      | String _ s' => search_number s'
      end
  end.

Fixpoint search_number_k (s : string) : option string :=
  match number_k_at s with
  | Some g => Some g
  | None =>
      match s with
      | EmptyString => None
      | String _ s' => search_number_k s'
      end
  end.

Definition Qlt_bool (a b : Q) : bool := negb (Qle_bool b a).

(** [_extract_number(text)]; [None] is an exception escaping the call. *)
Definition _extract_number (text : string) : option Q :=
  match (if contains "k" text then search_number_k text else None) with
  | Some g =>
      v ← float_of g ;
      Some (v * 1000)%Q
  | None =>
      match search_number text with
      | Some g =>
          base_num ← float_of g ;
          if any_in ["hour"; "hr"] text then Some (base_num * 2080)%Q
          else if any_in ["month"; "mo"] text then Some (base_num * 12)%Q
          else if any_in ["year"; "yr"; "annually"] text
                  || Qlt_bool 1000 base_num
          then Some base_num
          else Some (if Qlt_bool 1000 base_num then base_num
                     else base_num * 1000)%Q
      | None => Some 0%Q
      end
  end.

(** U+2013 and U+2014 in UTF-8. *)
Definition en_dash : string := String "226" (String "128" (String "147" EmptyString)).
Definition em_dash : string := String "226" (String "128" (String "148" EmptyString)).

Definition scons (c : ascii) (parts : list string) : list string :=
  match parts with
  | [] => [String c EmptyString]
  | w :: ws => String c w :: ws
  end.

(** [re.split(r'[-–—]', s)]. *)
Fixpoint re_split_range (s : string) : list string :=
  match s with
  | EmptyString => [EmptyString]
  | String c1 s1 =>
      if Ascii.eqb c1 "-" then EmptyString :: re_split_range s1
      else
        match s1 with
        | String c2 (String c3 s3) =>
            if Ascii.eqb c1 "226" && Ascii.eqb c2 "128"
               && (Ascii.eqb c3 "147" || Ascii.eqb c3 "148")
            then EmptyString :: re_split_range s3
            else scons c1 (re_split_range s1)
        | _ => scons c1 (re_split_range s1)
        end
  end.

(** Python truthiness of a number, [x or 0], and [max(a, b)]. *)
Definition truthy (x : Q) : bool := negb (Qeq_bool x 0).
Definition or0 (x : Q) : Q := if truthy x then x else 0%Q.
Definition py_max (a b : Q) : Q := if Qlt_bool a b then b else a.

Definition clean (salary_text : string) : string :=
  strip (remove_sub "salary:"
           (remove_char "," (remove_char "$" (lower salary_text)))).

(** The body of the [try] block. *)
Definition parse_clean (clean_text : string) : option Q :=
  if contains "-" clean_text || contains en_dash clean_text
     || contains em_dash clean_text
  then
    match re_split_range clean_text with
    | [part0; part1] =>
        low ← _extract_number part0 ;
        high ← _extract_number part1 ;
        Some (if truthy low && truthy high then (low + high) / 2
              else py_max (or0 low) (or0 high))%Q
    | _ => _extract_number clean_text
    end
  else _extract_number clean_text.

Definition parse_salary_to_number (salary_text : string) : Q :=
  if String.eqb salary_text "" || String.eqb salary_text "Not specified"
  then 0%Q
  else
    match parse_clean (clean salary_text) with
    | Some v => v
    | None => 0%Q   (* except: return 0 *)
    end.

End Salary.


(** ** Records, frames and the external collaborators *)

(** A job record as the adapters build it.  [salary_numeric] and
    [ai_analysis] are the two keys the scorers add to the dictionary. *)
Record job := Job {
  title : string;
  company : string;
  location : string;
  salary : string;
  job_type : string;
  summary : string;
  url : string;
  source : string;
  scraped_at : string;
  search_term : string;
  search_location : string;
  salary_numeric : option Q;
  ai_analysis : option string
}.

Definition set_title (v : string) (j : job) : job :=
  Job v (company j) (location j) (salary j) (job_type j) (summary j) (url j)
      (source j) (scraped_at j) (search_term j) (search_location j)
      (salary_numeric j) (ai_analysis j).

Definition set_company (v : string) (j : job) : job :=
  Job (title j) v (location j) (salary j) (job_type j) (summary j) (url j)
      (source j) (scraped_at j) (search_term j) (search_location j)
      (salary_numeric j) (ai_analysis j).

Definition set_location (v : string) (j : job) : job :=
  Job (title j) (company j) v (salary j) (job_type j) (summary j) (url j)
      (source j) (scraped_at j) (search_term j) (search_location j)
      (salary_numeric j) (ai_analysis j).

Definition set_salary_numeric (v : Q) (j : job) : job :=
  Job (title j) (company j) (location j) (salary j) (job_type j) (summary j)
      (url j) (source j) (scraped_at j) (search_term j) (search_location j)
      (Some v) (ai_analysis j).

Definition set_ai_analysis (v : string) (j : job) : job :=
  Job (title j) (company j) (location j) (salary j) (job_type j) (summary j)
      (url j) (source j) (scraped_at j) (search_term j) (search_location j)
      (salary_numeric j) (Some v).

(** A row of the scored frame: the record columns and the columns the
    pipeline adds.  A column the frame does not have yet is [None]. *)
Record row := Row {
  rec : job;
  relevance_score : Z;
  ai_career_score : option Z;
  final_ai_score : option Q;
  ai_rank : option nat;
  rank : option nat
}.

Definition set_ai_career_score (v : Z) (r : row) : row :=
  Row (rec r) (relevance_score r) (Some v) (final_ai_score r) (ai_rank r) (rank r).

Definition set_final_ai_score (v : Q) (r : row) : row :=
  Row (rec r) (relevance_score r) (ai_career_score r) (Some v) (ai_rank r) (rank r).

Definition set_ai_rank (v : nat) (r : row) : row :=
  Row (rec r) (relevance_score r) (ai_career_score r) (final_ai_score r) (Some v) (rank r).

Definition set_rank (v : nat) (r : row) : row :=
  Row (rec r) (relevance_score r) (ai_career_score r) (final_ai_score r) (ai_rank r) (Some v).

(** [job.get('final_ai_score', job['relevance_score'])]: the score a record
    is finally ranked by. *)
Definition final_score (r : row) : Q :=
  default (inject_Z (relevance_score r)) (final_ai_score r).

(** The CrewAI service.  [analysis_kickoff i j] is [str(result)] of the
    analysis crew started for the [i]-th row of the frame, whose record is
    [j], and [insights_kickoff] that of the insights crew; [None] stands for
    a call that raises. *)
Record ai_service := AiService {
  analysis_kickoff : nat → job → option string;
  insights_kickoff : list row → option string
}.

(** What a completed future holds. *)
Inductive future :=
  | Returned (jobs : list job)
  | Raised (error : string).

(** ** Collection orchestrator: [scrape_all_sources] *)

Module Orchestrator.

(** [future.result()]. *)
Definition result (f : future) : option (list job) :=
  match f with
  | Returned jobs => Some jobs
  | Raised _ => None
  end.

(** One iteration of the loop over [as_completed(futures)]; the state is
    [(all_jobs, source_results)]. *)
Definition collect (st : list job * gmap string nat) (f : future)
  : list job * gmap string nat :=
  let '(all_jobs, source_results) := st in
  let body :=
    jobs ← result f;
    let all_jobs := all_jobs ++ jobs in
    Some (match jobs with
          | j0 :: _ => (all_jobs, <[source j0 := length jobs]> source_results)
          | [] => (all_jobs, source_results)
          end) in
  match body with
  | Some st' => st'
  | None => st   (* except Exception: only a message is printed *)
  end.

(** [completed] lists the six futures in the order in which
    [as_completed] yields them; [api_jobs] is what [scrape_remote_apis]
    returns (each of its sources is guarded by its own handler). *)
Definition scrape_all_sources_state (completed : list future)
    (api_jobs : list job) : list job * gmap string nat :=
  let '(all_jobs, source_results) := foldl collect ([], ∅) completed in
  let all_jobs := all_jobs ++ api_jobs in
  let source_results :=
    match api_jobs with
    | _ :: _ => <["APIs" := length api_jobs]> source_results
    | [] => source_results
    end in
  (all_jobs, source_results).

Definition scrape_all_sources (completed : list future)
    (api_jobs : list job) : list job :=
  (scrape_all_sources_state completed api_jobs).1.

End Orchestrator.

(** ** Relevance scorer: [calculate_relevance_score] *)

Module Scorer.
Import Text Salary.

(** [[kw.strip().lower() for kw in keywords.split(',') if kw.strip()]]. *)
Definition split_terms (keywords : string) : list string :=
  map (λ kw, lower (strip kw))
      (List.filter (λ kw, negb (String.eqb (strip kw) ""))
                   (split_on "," keywords)).

(** [for term in terms: if term in text: score += points]. *)
Definition add_hits (points : Z) (terms : list string) (text : string)
    (score : Z) : Z :=
  foldl (λ score term, if contains term text then score + points else score)
        score terms.

Definition salary_tier (salary_numeric : Q) : Z :=
  if Qle_bool 150000 salary_numeric then 15
  else if Qle_bool 120000 salary_numeric then 12
  else if Qle_bool 90000 salary_numeric then 8
  else if Qle_bool 60000 salary_numeric then 5
  else 0.

(** Returns the score and the record as the call leaves it. *)
Definition calculate_relevance_score (j : job)
    (search_keywords location_keywords : string) : Z * job :=
  let score := 0 in
  let title_lower := lower (title j) in
  let company_lower := lower (company j) in
  let location_lower := lower (location j) in
  let summary_lower := lower (summary j) in
  let search_terms := split_terms search_keywords in
  let location_terms := split_terms location_keywords in
  let score := add_hits 15 search_terms title_lower score in
  let score := add_hits 8 search_terms company_lower score in
  let score := add_hits 5 search_terms summary_lower score in
  let score := add_hits 7 location_terms location_lower score in
  let score :=
    if any_in ["senior"; "lead"; "principal"] title_lower then score + 5
    else if any_in ["junior"; "entry"; "intern"] title_lower then score + 3
    else score in
  let score :=
    if any_in ["remote"; "work from home"] location_lower then score + 8
    else score in
  let salary_numeric := parse_salary_to_number (salary j) in
  if Qlt_bool 0 salary_numeric
  then (score + 10 + salary_tier salary_numeric,
        set_salary_numeric salary_numeric j)
  else (score, set_salary_numeric 0 j).

End Scorer.


(** ** Frame operations *)

Module Frame.

Section Sorting.
Context {A : Type} (key : A → Q).

(** Insertion in front of the first element whose key is not larger:
    an element never overtakes one with the same key. *)
Fixpoint insert_desc (x : A) (l : list A) : list A :=
  match l with
  | [] => [x]
  | y :: l' =>
      if Qle_bool (key y) (key x) then x :: l
      else y :: insert_desc x l'
  end.

(** [df.sort_values(key, ascending=False)]. *)
Definition sort_values (l : list A) : list A :=
  foldr insert_desc [] l.

Definition ge_key (x y : A) : Prop := (key y <= key x)%Q.

(** Non-increasing keys along the list. *)
Definition descending (l : list A) : Prop :=
  ∀ i j x y, (i < j)%nat → l !! i = Some x → l !! j = Some y →
             (key y <= key x)%Q.
End Sorting.

(** [df[col] = range(start, start + len(df))]. *)
Definition assign_range {A : Type} (set : nat → A → A) (start : nat)
    (l : list A) : list A :=
  zip_with set (seq start (length l)) l.

(** [df.drop_duplicates(subset=['title', 'company'], keep='first')];
    [seen] holds the keys of the rows already kept. *)
Definition dedup_key (j : job) : string * string := (title j, company j).

Fixpoint drop_duplicates_from (seen : gset (string * string))
    (jobs : list job) : list job :=
  match jobs with
  | [] => []
  | j :: rest =>
      if decide (dedup_key j ∈ seen) then drop_duplicates_from seen rest
      else j :: drop_duplicates_from ({[dedup_key j]} ∪ seen) rest
  end.

Definition drop_duplicates (jobs : list job) : list job :=
  drop_duplicates_from ∅ jobs.

End Frame.

(** ** AI scoring, AI ranking and the pipeline *)

Module Pipeline.
Import Text Salary Scorer Frame.

(** The pattern [SCORE:\s*(\d+)] anchored at the head of [s], giving
    [int(group(1))]. *)
Definition score_at (s : string) : option Z :=
  match strip_prefix "SCORE:" s with
  | Some r =>
      let '(d, _) := span_digits (lstrip r) in
      match d with
      | EmptyString => None
      | _ => Some (digits_val 0 d)
      end
  | None => None
  end.

Fixpoint search_score (s : string) : option Z :=
  match score_at s with
  | Some v => Some v
  | None =>
      match s with
      | EmptyString => None
      | String _ s' => search_score s'
      end
  end.

(** [ai_enhanced_relevance_scoring]; [kickoff] is the outcome of
    [analysis_crew.kickoff()] for this record.  Returns the score and the
    record as the call leaves it. *)
Definition ai_enhanced_relevance_scoring (kickoff : option string) (j : job)
    (search_keywords location_keywords : string) : Z * job :=
  let salary_numeric := parse_salary_to_number (salary j) in
  let j := set_salary_numeric salary_numeric j in
  let body :=
    result ← kickoff;
    let result_text := upper result in
    Some (match search_score result_text with
          | Some ai_score => (ai_score, set_ai_analysis result j)
          | None => calculate_relevance_score j search_keywords location_keywords
          end) in
  match body with
  | Some out => out
  | None => calculate_relevance_score j search_keywords location_keywords
  end.

Definition modern_tech : list string :=
  ["ai"; "machine learning"; "cloud"; "aws"; "kubernetes"; "react"; "python"].

Definition big_tech : list string :=
  ["google"; "microsoft"; "amazon"; "apple"; "meta"; "netflix"].

(** The body of the loop over [top_jobs.iterrows()]. *)
Definition career_score_of (j : job) : Z :=
  let career_score := 0 in
  let title_lower := lower (title j) in
  let company_lower := lower (company j) in
  let career_score :=
    if any_in ["senior"; "lead"; "principal"] title_lower then career_score + 15
    else if any_in ["mid"; "intermediate"] title_lower then career_score + 10
    else career_score in
  let career_score :=
    foldl (λ career_score tech,
             if contains tech title_lower || contains tech (lower (summary j))
             then career_score + 5 else career_score)
          career_score modern_tech in
  let career_score :=
    if any_in big_tech company_lower then career_score + 20
    else career_score in
  let salary_numeric := default 0%Q (salary_numeric j) in
  if Qlt_bool 0 salary_numeric then
    if Qle_bool 200000 salary_numeric then career_score + 25
    else if Qle_bool 150000 salary_numeric then career_score + 20
    else if Qle_bool 120000 salary_numeric then career_score + 15
    else if Qle_bool 90000 salary_numeric then career_score + 10
    else if Qle_bool 60000 salary_numeric then career_score + 5
    else career_score
  else career_score.

(** [relevance_score * 0.6 + ai_career_score * 0.4]. *)
Definition blend (relevance career : Z) : Q :=
  (inject_Z relevance * (6 # 10) + inject_Z career * (4 # 10))%Q.

(** The columns given to a row of [top_jobs]. *)
Definition enrich (r : row) : row :=
  let r := set_ai_career_score 0 r in
  let r := set_ai_career_score (career_score_of (rec r)) r in
  set_final_ai_score (blend (relevance_score r) (default 0 (ai_career_score r))) r.

(** The columns given to a row of [remaining_jobs]. *)
Definition keep_baseline (r : row) : row :=
  let r := set_ai_career_score 0 r in
  set_final_ai_score (inject_Z (relevance_score r)) r.

(** [ai_enhanced_job_ranking]: the [try] block.  On rows of these column
    types none of its statements raises, so its handler is not reached
    and is left out of the model. *)
Definition ai_enhanced_job_ranking (jobs_df : list row) : list row :=
  let top_jobs := take 20 jobs_df in
  let top_jobs := enrich <$> top_jobs in
  let top_jobs := sort_values final_score top_jobs in
  let top_jobs := assign_range set_ai_rank 1 top_jobs in
  let remaining_jobs := drop 20 jobs_df in
  let remaining_jobs := keep_baseline <$> remaining_jobs in
  let remaining_jobs :=
    assign_range set_ai_rank (length top_jobs + 1) remaining_jobs in
  top_jobs ++ remaining_jobs.

(** The handler of that [try] block: [ai_career_score = 0],
    [final_ai_score = relevance_score] and [ai_rank = jobs_df['rank']] on
    the whole frame.  Reading a column the frame does not have raises
    [KeyError], here [None].  (The frame it would get is never empty.) *)
Definition ai_enhanced_job_ranking_handler (jobs_df : list row)
  : option (list row) :=
  mapM (λ r, k ← rank r; Some (set_ai_rank k (keep_baseline r))) jobs_df.

(** [ai_job_insights_generation]. *)
Definition ai_job_insights_generation (ai : ai_service)
    (ranked_jobs_df : list row) : string :=
  match insights_kickoff ai ranked_jobs_df with
  | Some insights => insights
  | None => "AI insights not available due to processing error."
  end.

(** The three [str.strip] assignments and the [salary_numeric] column. *)
Definition clean_data (j : job) : job :=
  let j := set_title (strip (title j)) j in
  let j := set_company (strip (company j)) j in
  let j := set_location (strip (location j)) j in
  set_salary_numeric (parse_salary_to_number (salary j)) j.

Definition new_row (j : job) (score : Z) : row :=
  Row j score None None None None.

(** [process_and_rank_jobs].  [df.apply(..., axis=1)] hands each scorer a
    temporary copy of the row, so only the returned score reaches the
    frame. *)
Definition process_and_rank_jobs (ai : ai_service) (jobs : list job)
    (search_keywords location_keywords : string) (use_ai : bool)
    : list row * string :=
  match jobs with
  | [] => ([], "")
  | _ :: _ =>
      let df := drop_duplicates jobs in
      let df := clean_data <$> df in
      if use_ai then
        let df :=
          imap (λ i j,
                  new_row j (ai_enhanced_relevance_scoring
                               (analysis_kickoff ai i j) j
                               search_keywords location_keywords).1) df in
        let df := ai_enhanced_job_ranking df in
        let df := sort_values final_score df in
        let df := assign_range set_rank 1 df in
        let ai_insights := ai_job_insights_generation ai df in
        (df, ai_insights)
      else
        let df :=
          (λ j, new_row j (calculate_relevance_score
                             j search_keywords location_keywords).1) <$> df in
        let df := sort_values (λ r, inject_Z (relevance_score r)) df in
        let df := assign_range set_rank 1 df in
        (df, "AI insights not available - using traditional scoring.")
  end.

End Pipeline.


(** ** Stages of the pipeline and sample inputs *)

Module Stages.
Import Text Scorer Frame Pipeline.

(** The frame after deduplication and cleaning, in arrival order. *)
Definition cleaned (jobs : list job) : list job :=
  clean_data <$> drop_duplicates jobs.

(** The key under which the deduplication contract compares records. *)
Definition normalized_key (j : job) : string * string :=
  (lower (strip (title j)), lower (strip (company j))).


(** The baseline score of a record. *)
Definition baseline (j : job) (search_keywords location_keywords : string) : Z :=
  (calculate_relevance_score j search_keywords location_keywords).1.

(** The frame once its [relevance_score] column is assigned, in arrival
    order. *)
Definition scored (ai : ai_service) (jobs : list job)
    (search_keywords location_keywords : string) (use_ai : bool) : list row :=
  if use_ai then
    imap (λ i j, new_row j (ai_enhanced_relevance_scoring
                              (analysis_kickoff ai i j) j
                              search_keywords location_keywords).1)
         (cleaned jobs)
  else
    (λ j, new_row j (baseline j search_keywords location_keywords))
      <$> cleaned jobs.

(** The two ways in which [ai_enhanced_job_ranking] fills the AI columns
    of a row. *)
Definition blended (r : row) : Prop :=
  ai_career_score r = Some (career_score_of (rec r))
  ∧ final_ai_score r
    = Some (blend (relevance_score r) (career_score_of (rec r))).

Definition unblended (r : row) : Prop :=
  ai_career_score r = Some 0
  ∧ final_ai_score r = Some (inject_Z (relevance_score r)).

End Stages.

Module Inputs.

Definition posting (title company salary summary : string) : job :=
  Job title company "Not specified" salary "Full-time" summary
      "https://example.org/job" "Indeed" "2026-01-01 00:00:00"
      "Developer" "Anywhere" None None.

(** A service whose every call raises. *)
Definition ai_down : ai_service := AiService (λ _ _, None) (λ _, None).

Definition senior_clerk : job := posting "Senior Clerk" "Acme" "Not specified" "".
Definition java_developer : job := posting "Java Developer" "Initech" "Not specified" "".
Definition cloud_engineer : job :=
  posting "Senior Cloud Engineer" "Google" "Not specified" "Java services".





End Inputs.

(** ** Search criteria: [get_search_criteria] *)

Module Criteria.
Import Text.

(** [line1], [line2] and [line3] are the three lines that [input] reads. *)
Definition get_search_criteria (line1 line2 line3 : string)
  : string * string * string :=
  let search_term := strip line1 in
  let search_term :=
    if String.eqb search_term "" then "Software Developer" else search_term in
  let location := strip line2 in
  let location := if String.eqb location "" then "Remote" else location in
  let keywords := strip line3 in
  let keywords := if String.eqb keywords "" then search_term else keywords in
  (search_term, location, keywords).

End Criteria.

(** ** The summary that [scrape_all_sources] prints *)

Module Summary.

(** The loop over [source_results.items()] that adds the counts up. *)
Definition total_jobs (source_results : gmap string nat) : nat :=
  map_fold (λ _ count total_jobs, (total_jobs + count)%nat) 0%nat
           source_results.

(** The key under which the loop over the futures files a future:
    [jobs[0].get('source', 'Unknown')], for a future that returned at
    least one record. *)
Definition first_source (f : future) : option string :=
  match f with
  | Returned (j0 :: _) => Some (source j0)
  | _ => None
  end.

End Summary.

(** ** Source adapters: the pagination loops

    What a site delivers is not part of the model.  A page is given by its
    outcome: the request raises, the wait for job cards times out, or it
    holds a list of cards.  A card is given by the values of the local
    variables from which the adapter builds [job_data], or by [None] when
    its extraction raises and the card is skipped. *)

Module Adapters.
Import Text.

Record extracted := Extracted {
  x_title : string;
  x_company : string;
  x_job_location : string;
  x_salary : string;
  x_job_type : string;
  x_summary : string;
  x_job_link : string;
  x_now : string
}.

(** A page fetched with [session.get]. *)
Inductive response :=
  | RequestRaises
  | Response (job_cards : list (option extracted)).

(** A page loaded with the web driver. *)
Inductive page_load :=
  | LoadRaises
  | WaitTimeout
  | Loaded (job_cards : list (option extracted)).

Definition indeed_job_data (x : extracted) (search_term location : string) : job :=
  Job (strip (x_title x)) (strip (x_company x)) (strip (x_job_location x))
      (strip (x_salary x)) (strip (x_job_type x)) (strip (x_summary x))
      (x_job_link x) "Indeed" (x_now x) search_term location None None.

Definition linkedin_job_data (x : extracted) (search_term location : string) : job :=
  Job (x_title x) (x_company x) (x_job_location x) (x_salary x)
      "Not specified" (x_summary x) (x_job_link x) "LinkedIn" (x_now x)
      search_term location None None.

Definition glassdoor_job_data (x : extracted) (search_term location : string) : job :=
  Job (x_title x) (x_company x) (x_job_location x) (x_salary x)
      "Not specified" "" (x_job_link x) "Glassdoor" (x_now x)
      search_term location None None.

(** The [job_data] of Monster, ZipRecruiter and CareerBuilder, which differ
    in the source name and in the site prefixed to a relative link. *)
Definition board_job_data (source_name site : string) (x : extracted)
    (search_term location : string) : job :=
  Job (x_title x) (x_company x) (x_job_location x) (x_salary x)
      "Not specified" (x_summary x)
      (if strip_prefix "http" (x_job_link x) is Some _ then x_job_link x
       else site +:+ x_job_link x)
      source_name (x_now x) search_term location None None.

(** The loop over the cards of a page: the records appended to [jobs]. *)
Definition page_records (job_data : extracted → job)
    (job_cards : list (option extracted)) : list job :=
  omap (λ card, job_data <$> card) job_cards.

(** [scrape_linkedin_comprehensive]: each page has its own handler, so a
    page that raises is passed over. *)
Fixpoint linkedin_pages (fetch : nat → response) (search_term location : string)
    (page budget : nat) (jobs : list job) : list job :=
  match budget with
  | O => jobs
  | S budget' =>
      match fetch page with
      | RequestRaises =>
          linkedin_pages fetch search_term location (S page) budget' jobs
      | Response [] => jobs
      | Response job_cards =>
          let page_jobs :=
            page_records (λ x, linkedin_job_data x search_term location)
                         job_cards in
          let jobs := jobs ++ page_jobs in
          match page_jobs with
          | [] => jobs
          | _ => linkedin_pages fetch search_term location (S page) budget' jobs
          end
      end
  end.

Definition scrape_linkedin_comprehensive (fetch : nat → response)
    (search_term location : string) (max_pages : nat) : list job :=
  linkedin_pages fetch search_term location 0 max_pages [].

(** [scrape_glassdoor_comprehensive]: one handler around the whole loop, so
    a page that raises ends the pagination; pages are numbered from 1. *)
Fixpoint glassdoor_pages (fetch : nat → response) (search_term location : string)
    (page budget : nat) (jobs : list job) : list job :=
  match budget with
  | O => jobs
  | S budget' =>
      match fetch page with
      | RequestRaises => jobs
      | Response [] => jobs
      | Response job_cards =>
          let page_jobs :=
            page_records (λ x, glassdoor_job_data x search_term location)
                         job_cards in
          let jobs := jobs ++ page_jobs in
          match page_jobs with
          | [] => jobs
          | _ => glassdoor_pages fetch search_term location (S page) budget' jobs
          end
      end
  end.

Definition scrape_glassdoor_comprehensive (fetch : nat → response)
    (search_term location : string) (max_pages : nat) : list job :=
  glassdoor_pages fetch search_term location 1 max_pages [].

(** [scrape_indeed_comprehensive]: [setup_driver] runs outside every
    handler, so its failure leaves the call ([None]); a page that raises
    is passed over and a wait that times out ends the pagination. *)
Fixpoint indeed_pages (load : nat → page_load) (search_term location : string)
    (page budget : nat) (jobs : list job) : list job :=
  match budget with
  | O => jobs
  | S budget' =>
      match load page with
      | LoadRaises => indeed_pages load search_term location (S page) budget' jobs
      | WaitTimeout => jobs
      | Loaded [] => jobs
      | Loaded job_cards =>
          let page_jobs :=
            page_records (λ x, indeed_job_data x search_term location)
                         job_cards in
          let jobs := jobs ++ page_jobs in
          match page_jobs with
          | [] => jobs
          | _ => indeed_pages load search_term location (S page) budget' jobs
          end
      end
  end.

Definition scrape_indeed_comprehensive (setup_driver : bool)
    (load : nat → page_load) (search_term location : string)
    (max_pages : nat) : option (list job) :=
  if setup_driver
  then Some (indeed_pages load search_term location 0 max_pages [])
  else None.

(** [scrape_monster_comprehensive], [scrape_ziprecruiter_comprehensive] and
    [scrape_careerbuilder_comprehensive]: one handler around the whole
    loop; a wait that times out passes to the next page; at most fifteen
    cards of a page are read. *)
Fixpoint board_pages (source_name site : string) (load : nat → page_load)
    (search_term location : string) (page budget : nat) (jobs : list job)
  : list job :=
  match budget with
  | O => jobs
  | S budget' =>
      match load page with
      | LoadRaises => jobs
      | WaitTimeout =>
          board_pages source_name site load search_term location
                      (S page) budget' jobs
      | Loaded job_cards =>
          let page_jobs :=
            page_records (λ x, board_job_data source_name site x
                                              search_term location)
                         (take 15 job_cards) in
          let jobs := jobs ++ page_jobs in
          match page_jobs with
          | [] => jobs
          | _ => board_pages source_name site load search_term location
                             (S page) budget' jobs
          end
      end
  end.

Definition scrape_monster_comprehensive (load : nat → page_load)
    (search_term location : string) (max_pages : nat) : list job :=
  board_pages "Monster" "https://www.monster.com" load
              search_term location 0 max_pages [].

Definition scrape_ziprecruiter_comprehensive (load : nat → page_load)
    (search_term location : string) (max_pages : nat) : list job :=
  board_pages "ZipRecruiter" "https://www.ziprecruiter.com" load
              search_term location 0 max_pages [].

Definition scrape_careerbuilder_comprehensive (load : nat → page_load)
    (search_term location : string) (max_pages : nat) : list job :=
  board_pages "CareerBuilder" "https://www.careerbuilder.com" load
              search_term location 0 max_pages [].

(** The sites as one run of [scrape_all_sources] meets them. *)
Record sites := Sites {
  indeed_setup : bool;
  indeed_site : nat → page_load;
  linkedin_site : nat → response;
  glassdoor_site : nat → response;
  monster_site : nat → page_load;
  ziprecruiter_site : nat → page_load;
  careerbuilder_site : nat → page_load
}.

(** The six futures that [scrape_all_sources] submits, with their page
    budgets. *)
Definition submitted (w : sites) (search_term location : string) : list future :=
  [ match scrape_indeed_comprehensive (indeed_setup w) (indeed_site w)
                                      search_term location 10 with
    | Some jobs => Returned jobs
    | None => Raised "setup_driver"
    end;
    Returned (scrape_linkedin_comprehensive (linkedin_site w) search_term location 5);
    Returned (scrape_glassdoor_comprehensive (glassdoor_site w) search_term location 3);
    Returned (scrape_monster_comprehensive (monster_site w) search_term location 3);
    Returned (scrape_ziprecruiter_comprehensive (ziprecruiter_site w) search_term location 3);
    Returned (scrape_careerbuilder_comprehensive (careerbuilder_site w) search_term location 3) ].

End Adapters.

(** ** The shape the pagination loops share

    Each loop visits the pages in order; a page is passed over
    ([continue]), ends the loop ([break], or the handler around the whole
    loop), or has its records appended, and a page that yields no record
    ends the loop.  The proofs about the four loops go through this one. *)

Module Pagination.
Import Adapters.

Inductive step :=
  | Skip
  | Stop
  | Records (page_jobs : list job).

Fixpoint run_pages (outcome : nat → step) (page budget : nat)
    (jobs : list job) : list job :=
  match budget with
  | O => jobs
  | S budget' =>
      match outcome page with
      | Skip => run_pages outcome (S page) budget' jobs
      | Stop => jobs
      | Records [] => jobs
      | Records page_jobs =>
          run_pages outcome (S page) budget' (jobs ++ page_jobs)
      end
  end.

(** The records a page contributes. *)
Definition records_of (outcome : nat → step) (page : nat) : list job :=
  match outcome page with
  | Records page_jobs => page_jobs
  | _ => []
  end.

(** Whether the loop goes on after a page. *)
Definition passes (outcome : nat → step) (page : nat) : bool :=
  match outcome page with
  | Skip => true
  | Stop | Records [] => false
  | Records _ => true
  end.

Definition linkedin_step (fetch : nat → response)
    (search_term location : string) (page : nat) : step :=
  match fetch page with
  | RequestRaises => Skip
  | Response [] => Stop
  | Response job_cards =>
      Records (page_records (λ x, linkedin_job_data x search_term location)
                            job_cards)
  end.

Definition glassdoor_step (fetch : nat → response)
    (search_term location : string) (page : nat) : step :=
  match fetch page with
  | RequestRaises => Stop
  | Response [] => Stop
  | Response job_cards =>
      Records (page_records (λ x, glassdoor_job_data x search_term location)
                            job_cards)
  end.

Definition indeed_step (load : nat → page_load)
    (search_term location : string) (page : nat) : step :=
  match load page with
  | LoadRaises => Skip
  | WaitTimeout => Stop
  | Loaded [] => Stop
  | Loaded job_cards =>
      Records (page_records (λ x, indeed_job_data x search_term location)
                            job_cards)
  end.

Definition board_step (source_name site : string) (load : nat → page_load)
    (search_term location : string) (page : nat) : step :=
  match load page with
  | LoadRaises => Stop
  | WaitTimeout => Skip
  | Loaded job_cards =>
      Records (page_records (λ x, board_job_data source_name site x
                                                 search_term location)
                            (take 15 job_cards))
  end.

End Pagination.

(** Sample runs of the sites, used to instantiate the statements. *)

Module Pages.
Import Adapters.

Definition card : extracted :=
  Extracted "Data Engineer" "Initech" "Austin, TX" "$95,000" "Full-time"
            "Build pipelines" "/jobs/42" "2024-01-01 00:00:00".

(** A site whose first page fails, whose second page holds one readable
    card and one that cannot be read, and whose third page holds no
    readable card. *)
Definition flaky_site (page : nat) : response :=
  match page with
  | 0 => RequestRaises
  | 1 => Response [Some card; None]
  | 2 => Response [None]
  | _ => Response [Some card]
  end%nat.

(** A site whose first two pages hold a readable card and whose third
    page fails. *)
Definition broken_site (page : nat) : response :=
  match page with
  | 0 | 1 => Response [Some card]
  | 2 => RequestRaises
  | _ => Response [Some card]
  end%nat.

(** A driver whose first page fails, whose second page loads and whose
    third page times out. *)
Definition failing_first (page : nat) : page_load :=
  match page with
  | 0 => LoadRaises
  | 1 => Loaded [Some card]
  | 2 => WaitTimeout
  | _ => Loaded [Some card]
  end%nat.

(** A driver whose first page times out, whose second page loads and whose
    third page fails. *)
Definition timeout_first (page : nat) : page_load :=
  match page with
  | 0 => WaitTimeout
  | 1 => Loaded [Some card]
  | 2 => LoadRaises
  | _ => Loaded [Some card]
  end%nat.

Definition run : sites :=
  Sites false failing_first flaky_site broken_site timeout_first timeout_first
        timeout_first.

End Pages.

(** ** The report of [run_perfect_job_scraper] *)

Module Report.
Import Salary.

(** [s[:n] + "..." if len(s) > n else s]. *)
Definition shorten (n : nat) (s : string) : string :=
  if (n <? String.length s)%nat then String.substring 0 n s +:+ "..." else s.

(** The text cells of a printed row: title, company, location, salary. *)
Definition display_cells (r : row) : string * string * string * string :=
  (shorten 27 (title (rec r)), shorten 17 (company (rec r)),
   shorten 12 (location (rec r)), shorten 17 (salary (rec r))).

(** The [salary_numeric] column of the ranked frame. *)
Definition salary_numeric_of (r : row) : Q := default 0%Q (salary_numeric (rec r)).

Definition jobs_with_salary (ranked_jobs_df : list row) : list row :=
  List.filter (λ r, negb (String.eqb (salary (rec r)) "Not specified"))
              ranked_jobs_df.

Definition jobs_with_numeric_salary (ranked_jobs_df : list row) : list row :=
  List.filter (λ r, Qlt_bool 0 (salary_numeric_of r)) ranked_jobs_df.

Definition high_salary (ranked_jobs_df : list row) : nat :=
  length (List.filter (λ r, Qle_bool 120000 (salary_numeric_of r))
                      (jobs_with_numeric_salary ranked_jobs_df)).

Definition mid_salary (ranked_jobs_df : list row) : nat :=
  length (List.filter (λ r, Qle_bool 80000 (salary_numeric_of r)
                            && Qlt_bool (salary_numeric_of r) 120000)
                      (jobs_with_numeric_salary ranked_jobs_df)).

Definition entry_salary (ranked_jobs_df : list row) : nat :=
  length (List.filter (λ r, Qlt_bool (salary_numeric_of r) 80000)
                      (jobs_with_numeric_salary ranked_jobs_df)).

End Report.

(** * Properties *)

(** ** Text *)

Module TextFacts.
Import Text.

Lemma is_digit_lower_ascii c : is_digit (lower_ascii c) = is_digit c.
Proof. destruct c as [[] [] [] [] [] [] [] []]; reflexivity. Qed.

Lemma has_digit_lower s : has_digit (lower s) = has_digit s.
Proof.
  unfold lower. induction s as [|c s IH]; [done|].
  simpl. by rewrite is_digit_lower_ascii, IH.
Qed.

Lemma has_digit_remove_char c s :
  has_digit s = false → has_digit (remove_char c s) = false.
Proof.
  induction s as [|a s IH]; [done|]. simpl.
  intros [Ha Hs]%orb_false_iff.
  destruct (Ascii.eqb a c); simpl; [by apply IH|].
  by rewrite Ha, IH.
Qed.

Lemma has_digit_strip_prefix p s rest :
  strip_prefix p s = Some rest → has_digit s = false → has_digit rest = false.
Proof.
  revert s. induction p as [|a p IH]; intros s; simpl.
  - by intros [= ->].
  - destruct s as [|b s]; [done|]. simpl.
    destruct (Ascii.eqb a b); [|done].
    intros Hp [_ Hs]%orb_false_iff. eauto.
Qed.

Lemma has_digit_remove_sub_go fuel p s :
  has_digit s = false → has_digit (remove_sub_go fuel p s) = false.
Proof.
  revert s. induction fuel as [|fuel IH]; intros s Hs; [done|]. simpl.
  destruct (strip_prefix p s) as [rest|] eqn:Hp.
  - eapply IH, has_digit_strip_prefix; eauto.
  - destruct s as [|a s]; [done|]. simpl in *.
    apply orb_false_iff in Hs as [Ha Hs]. by rewrite Ha, IH.
Qed.

Lemma has_digit_lstrip s : has_digit s = false → has_digit (lstrip s) = false.
Proof.
  induction s as [|c s IH]; [done|]. simpl. intros Hs.
  destruct (is_space c); [|done].
  apply orb_false_iff in Hs as [_ Hs]. auto.
Qed.

Lemma has_digit_rstrip s : has_digit s = false → has_digit (rstrip s) = false.
Proof.
  induction s as [|c s IH]; [done|]. simpl.
  intros [Hc Hs]%orb_false_iff. specialize (IH Hs).
  destruct (rstrip s) as [|c' t].
  - destruct (is_space c); simpl; [done|]. by rewrite Hc.
  - simpl in *. by rewrite Hc, IH.
Qed.

Lemma has_digit_strip s : has_digit s = false → has_digit (strip s) = false.
Proof. intros. by apply has_digit_rstrip, has_digit_lstrip. Qed.

Lemma span_digits_no_digit s :
  has_digit s = false → (span_digits s).1 = EmptyString.
Proof.
  destruct s as [|c s]; [done|]. simpl.
  intros [-> _]%orb_false_iff. done.
Qed.

Lemma digit_val_nonneg c : 0 <= digit_val c.
Proof. unfold digit_val. lia. Qed.

Lemma digits_val_nonneg s : ∀ acc, 0 <= acc → 0 <= digits_val acc s.
Proof.
  induction s as [|c s IH]; intros acc Hacc; simpl; [done|].
  apply IH. pose proof (digit_val_nonneg c). lia.
Qed.

Lemma span_digits_all s : all_digits (span_digits s).1 = true.
Proof.
  induction s as [|c s IH]; [done|]. simpl.
  destruct (is_digit c) eqn:Hc; [|done].
  destruct (span_digits s) as [d r]. simpl in *. by rewrite Hc, IH.
Qed.

(** A run of digits followed by a non-digit is split at that point. *)
Lemma span_digits_app d r :
  all_digits d = true →
  (span_digits r).1 = EmptyString →
  span_digits (d +:+ r) = (d, (span_digits r).2).
Proof.
  intros Hd Hr. induction d as [|c d IH].
  - change (EmptyString +:+ r) with r.
    destruct (span_digits r) as [d' r']. simpl in *. by subst.
  - change (String c d +:+ r) with (String c (d +:+ r)). simpl in *.
    destruct (is_digit c); [|done]. by rewrite (IH Hd).
Qed.

Lemma span_digits_rest s :
  (span_digits (span_digits s).2).1 = EmptyString
  ∧ (span_digits (span_digits s).2).2 = (span_digits s).2.
Proof.
  induction s as [|c s IH]; [done|]. simpl.
  destruct (is_digit c) eqn:Hc.
  - destruct (span_digits s) as [d r]. simpl in *. done.
  - simpl. by rewrite Hc.
Qed.

End TextFacts.

(** ** Salary normaliser *)

Module SalaryFacts.
Import Text TextFacts Salary.

Lemma Qlt_bool_iff a b : Qlt_bool a b = true ↔ (a < b)%Q.
Proof.
  unfold Qlt_bool. rewrite negb_true_iff.
  destruct (Qle_bool b a) eqn:H.
  - apply Qle_bool_iff in H. split; [done|]. intros ?%Qlt_not_le. done.
  - split; [intros _|done]. apply Qnot_le_lt. intros ?%Qle_bool_iff. congruence.
Qed.

Lemma span_digits_self d : all_digits d = true → span_digits d = (d, EmptyString).
Proof.
  induction d as [|c d IH]; [done|]. simpl.
  destruct (is_digit c); [|done]. intros ->%IH. done.
Qed.

Lemma Qmake_nonneg z p : 0 <= z → (0 <= Qmake z p)%Q.
Proof. unfold Qle. cbn [Qnum Qden]. lia. Qed.

Lemma float_of_nonneg g v : float_of g = Some v → (0 <= v)%Q.
Proof.
  unfold float_of. destruct (span_digits g) as [i r].
  destruct i as [|c i]; [done|].
  assert (0 <= digits_val 0 (String c i)) by (by apply digits_val_nonneg).
  destruct r as [|c' f].
  - intros [= <-]. by apply Qmake_nonneg.
  - destruct (_ && _); [|done]. intros [= <-].
    by apply Qmake_nonneg, digits_val_nonneg.
Qed.

(** [float] accepts every text the number pattern can capture. *)
Lemma number_at_float s g r : number_at s = Some (g, r) → is_Some (float_of g).
Proof.
  unfold number_at.
  pose proof (span_digits_all s) as Hi.
  destruct (span_digits s) as [i r0]. simpl in Hi.
  destruct i as [|c i]; [done|].
  assert (float_of (String c i) = Some (inject_Z (digits_val 0 (String c i)))) as Hplain.
  { unfold float_of. by rewrite (span_digits_self _ Hi). }
  destruct r0 as [|c0 r'].
  { intros [= <- <-]. by rewrite Hplain. }
  pose proof (span_digits_all r') as Hf.
  destruct (span_digits r') as [f r'']. simpl in Hf.
  destruct (Ascii.eqb c0 "." && negb (String.eqb f "")) eqn:Hdot.
  - apply andb_true_iff in Hdot as [->%Ascii.eqb_eq _].
    intros [= <- <-]. unfold float_of.
    rewrite (span_digits_app (String c i) (String "." f) Hi eq_refl).
    simpl. rewrite Hf. done.
  - intros [= <- <-]. by rewrite Hplain.
Qed.

Lemma search_number_float s g : search_number s = Some g → is_Some (float_of g).
Proof.
  induction s as [|c s IH]; [done|].
  cbn [search_number].
  destruct (number_at (String c s)) as [[g' r]|] eqn:Hn; [|done].
  intros [= <-]. by eapply number_at_float.
Qed.

Lemma search_number_k_float s g :
  search_number_k s = Some g → is_Some (float_of g).
Proof.
  assert (∀ t, number_k_at t = Some g → is_Some (float_of g)) as Hat.
  { intros t. unfold number_k_at.
    destruct (number_at t) as [[g' [|c r]]|] eqn:Hn; [done| |done].
    destruct (Ascii.eqb c "k"); [|done].
    intros [= <-]. by eapply number_at_float. }
  induction s as [|c s IH]; [done|].
  cbn [search_number_k].
  destruct (number_k_at (String c s)) eqn:Hk; [|done].
  intros [= <-]. eauto.
Qed.

(** No exception escapes [_extract_number], and its value is not
    negative. *)
Lemma _extract_number_returns text :
  ∃ v, _extract_number text = Some v ∧ (0 <= v)%Q.
Proof.
  unfold _extract_number.
  destruct (if contains "k" text then search_number_k text else None)
    as [g|] eqn:Hk.
  - assert (search_number_k text = Some g) as Hg
      by (destruct (contains "k" text); [done|discriminate]).
    destruct (search_number_k_float _ _ Hg) as [v Hv]. rewrite Hv. simpl.
    apply float_of_nonneg in Hv. eexists; split; [done|].
    apply Qmult_le_0_compat; [done|]. unfold Qle; simpl; lia.
  - destruct (search_number text) as [g|] eqn:Hg.
    + destruct (search_number_float _ _ Hg) as [v Hv]. rewrite Hv. simpl.
      apply float_of_nonneg in Hv.
      assert (∀ k, (0 <= inject_Z (Zpos k))%Q → (0 <= v * inject_Z (Zpos k))%Q)
        as Hmul by (intros; by apply Qmult_le_0_compat).
      repeat match goal with
             | |- context [if ?b then _ else _] => destruct b
             end; eexists; (split; [done|]); try done;
        apply Qmult_le_0_compat; try done; unfold Qle; simpl; lia.
    + eexists; split; [done|]. unfold Qle; simpl; lia.
Qed.

Lemma or0_nonneg x : (0 <= x)%Q → (0 <= or0 x)%Q.
Proof. unfold or0. destruct (truthy x); [done|]. intros _. unfold Qle; simpl; lia. Qed.

Lemma py_max_nonneg a b : (0 <= a)%Q → (0 <= b)%Q → (0 <= py_max a b)%Q.
Proof. unfold py_max. by destruct (Qlt_bool a b). Qed.

(** The [try] block always reaches a [return]. *)
Lemma parse_clean_returns clean_text :
  ∃ v, parse_clean clean_text = Some v ∧ (0 <= v)%Q.
Proof.
  unfold parse_clean.
  destruct (_ || _); [|apply _extract_number_returns].
  destruct (re_split_range clean_text) as [|p0 [|p1 [|p2 ps]]];
    try apply _extract_number_returns.
  destruct (_extract_number_returns p0) as (low & -> & Hlow).
  destruct (_extract_number_returns p1) as (high & -> & Hhigh).
  simpl. eexists; split; [done|].
  destruct (_ && _).
  - unfold Qdiv. apply Qmult_le_0_compat; [|unfold Qle; simpl; lia].
    rewrite <- (Qplus_0_l 0). by apply Qplus_le_compat.
  - by apply py_max_nonneg; apply or0_nonneg.
Qed.

Lemma number_at_no_digit s : has_digit s = false → number_at s = None.
Proof.
  intros Hs. unfold number_at.
  pose proof (span_digits_no_digit s Hs) as Hi.
  destruct (span_digits s) as [i r]. simpl in Hi. by subst.
Qed.

Lemma search_number_no_digit s : has_digit s = false → search_number s = None.
Proof.
  induction s as [|c s IH]; [done|]. intros Hs.
  cbn [search_number]. rewrite (number_at_no_digit _ Hs).
  apply IH. simpl in Hs. by apply orb_false_iff in Hs as [_ ?].
Qed.

Lemma search_number_k_no_digit s :
  has_digit s = false → search_number_k s = None.
Proof.
  induction s as [|c s IH]; [done|]. intros Hs.
  cbn [search_number_k]. unfold number_k_at.
  rewrite (number_at_no_digit _ Hs).
  apply IH. simpl in Hs. by apply orb_false_iff in Hs as [_ ?].
Qed.

(** Text without a digit holds no number. *)
Lemma _extract_number_no_digit text :
  has_digit text = false → _extract_number text = Some 0%Q.
Proof.
  intros Hs. unfold _extract_number.
  rewrite (search_number_k_no_digit _ Hs), (search_number_no_digit _ Hs).
  by destruct (contains "k" text).
Qed.

Lemma scons_no_digit c parts :
  is_digit c = false →
  Forall (λ p, has_digit p = false) parts →
  Forall (λ p, has_digit p = false) (scons c parts).
Proof.
  intros Hc [|p ps Hp Hps]; simpl.
  - repeat constructor. simpl. by rewrite Hc.
  - constructor; [|done]. simpl. by rewrite Hc.
Qed.

Lemma re_split_range_no_digit s :
  has_digit s = false →
  Forall (λ p, has_digit p = false) (re_split_range s).
Proof.
  remember (String.length s) as n eqn:Hn.
  assert (String.length s <= n)%nat as Hlen by lia. clear Hn.
  revert s Hlen. induction n as [|n IH]; intros [|c1 s1] Hlen Hs;
    simpl in *; try lia; try (by repeat constructor).
  apply orb_false_iff in Hs as [Hc1 Hs1].
  assert (Forall (λ p, has_digit p = false) (re_split_range s1)) as H1
    by (apply IH; [lia|done]).
  destruct (Ascii.eqb c1 "-"); [by constructor|].
  destruct s1 as [|c2 [|c3 s3]]; try by apply scons_no_digit.
  destruct (_ && _); [|by apply scons_no_digit].
  constructor; [done|]. apply IH; [simpl in *; lia|].
  simpl in Hs1. apply orb_false_iff in Hs1 as [_ Hs1].
  by apply orb_false_iff in Hs1 as [_ ?].
Qed.

Lemma parse_clean_no_digit clean_text :
  has_digit clean_text = false → parse_clean clean_text = Some 0%Q.
Proof.
  intros Hs. unfold parse_clean.
  destruct (_ || _); [|by apply _extract_number_no_digit].
  pose proof (re_split_range_no_digit _ Hs) as Hparts.
  destruct (re_split_range clean_text) as [|p0 [|p1 [|p2 ps]]];
    try by apply _extract_number_no_digit.
  apply Forall_cons in Hparts as [H0 Hparts].
  apply Forall_cons in Hparts as [H1 _].
  by rewrite (_extract_number_no_digit _ H0), (_extract_number_no_digit _ H1).
Qed.

Lemma clean_no_digit s : has_digit s = false → has_digit (clean s) = false.
Proof.
  intros Hs. unfold clean, remove_sub.
  apply has_digit_strip, has_digit_remove_sub_go.
  do 2 apply has_digit_remove_char. by rewrite has_digit_lower.
Qed.

Lemma parse_salary_to_number_nonneg s : (0 <= parse_salary_to_number s)%Q.
Proof.
  unfold parse_salary_to_number. destruct (_ || _); [done|].
  by destruct (parse_clean_returns (clean s)) as (v & -> & Hv).
Qed.

(** C4: the four documented inputs of the salary normaliser.  The range
    is cleaned to two parts that resolve to 100000 and 120000 and yields
    their mean; the hourly figure is multiplied by 2080; the sentinel
    yields 0; the [k] suffix multiplies by 1000. *)
Theorem C4_salary_test_vector :
  clean "$100,000 - $120,000" = "100000 - 120000"
  ∧ re_split_range "100000 - 120000" = ["100000 "; " 120000"]
  ∧ _extract_number "100000 " = Some 100000%Q
  ∧ _extract_number " 120000" = Some 120000%Q
  ∧ (parse_salary_to_number "$100,000 - $120,000" == (100000 + 120000) / 2)%Q
  ∧ (parse_salary_to_number "$100,000 - $120,000" == 110000)%Q
  ∧ (parse_salary_to_number "$50/hour" == 50 * 2080)%Q
  ∧ (parse_salary_to_number "$50/hour" == 104000)%Q
  ∧ (parse_salary_to_number "Not specified" == 0)%Q
  ∧ (parse_salary_to_number "90k" == 90 * 1000)%Q
  ∧ (parse_salary_to_number "90k" == 90000)%Q.
Proof. repeat split; vm_compute; reflexivity. Qed.

(** C5: on every string [parse_salary_to_number] returns a number that is
    not negative (the model is total: no exception leaves the call), and
    it returns 0 on the empty string, on the sentinel and on text in
    which no number can be found. *)
Theorem C5_parse_salary_never_raises_nonneg (salary_text : string) :
  (0 <= parse_salary_to_number salary_text)%Q
  ∧ (salary_text = "" ∨ salary_text = "Not specified"
     ∨ has_digit salary_text = false →
     (parse_salary_to_number salary_text == 0)%Q).
Proof.
  split; [apply parse_salary_to_number_nonneg|].
  intros [-> | [-> | Hs]]; [done..|].
  unfold parse_salary_to_number. destruct (_ || _); [done|].
  by rewrite (parse_clean_no_digit _ (clean_no_digit _ Hs)).
Qed.

Lemma C5_parse_salary_witness :
  (parse_salary_to_number "Competitive pay, DOE" == 0)%Q.
Proof.
  apply (C5_parse_salary_never_raises_nonneg "Competitive pay, DOE").
  right; right. reflexivity.
Defined.

End SalaryFacts.

(** ** Collection orchestrator *)

Module OrchestratorFacts.
Import Orchestrator.

(** The loop appends the records of the futures that returned, in
    completion order, and skips the futures that raised. *)
Lemma foldl_collect completed : ∀ all_jobs source_results,
  (foldl collect (all_jobs, source_results) completed).1
  = all_jobs ++ concat (omap result completed).
Proof.
  induction completed as [|f completed IH]; intros all_jobs source_results.
  - simpl. by rewrite app_nil_r.
  - cbn [foldl]. destruct f as [jobs|e]; simpl.
    + destruct jobs as [|j0 jobs]; rewrite IH; by rewrite <- app_assoc.
    + apply IH.
Qed.

Lemma scrape_all_sources_eq completed api_jobs :
  scrape_all_sources completed api_jobs
  = concat (omap result completed) ++ api_jobs.
Proof.
  unfold scrape_all_sources, scrape_all_sources_state.
  pose proof (foldl_collect completed [] ∅) as H.
  destruct (foldl collect ([], ∅) completed) as [all_jobs source_results].
  simpl in *. by subst.
Qed.

Lemma elem_of_returned (j : job) completed :
  j ∈ concat (omap result completed)
  ↔ ∃ jobs, Returned jobs ∈ completed ∧ j ∈ jobs.
Proof.
  induction completed as [|f completed IH]; simpl.
  - split; [by intros ?%elem_of_nil|]. by intros (? & ?%elem_of_nil & _).
  - destruct f as [jobs|e]; simpl.
    + rewrite elem_of_app, IH. split.
      * intros [H | (jobs' & H1 & H2)].
        -- exists jobs. split; [left|done].
        -- exists jobs'. split; [by right|done].
      * intros (jobs' & H1 & H2). apply elem_of_cons in H1 as [[= ->] | H1].
        -- by left.
        -- right. eauto.
    + rewrite IH. split.
      * intros (jobs' & H1 & H2). exists jobs'. split; [by right|done].
      * intros (jobs' & H1 & H2). apply elem_of_cons in H1 as [[=] | H1]. eauto.
Qed.

(** C1: whatever subset of the futures raises, [scrape_all_sources]
    returns, and its result is the concatenation, in completion order, of
    the records of the futures that returned, followed by the records of
    the API phase.  A record is in the result exactly when a future that
    returned holds it or the API phase produced it, and the futures that
    raised contribute nothing: dropping them from the run leaves the
    result unchanged. *)
Theorem C1_partial_failure_union (completed : list future)
    (api_jobs : list job) :
  let merged := scrape_all_sources completed api_jobs in
  merged = concat (omap result completed) ++ api_jobs
  ∧ (∀ j, j ∈ merged ↔
          (∃ jobs, Returned jobs ∈ completed ∧ j ∈ jobs) ∨ j ∈ api_jobs)
  ∧ merged = scrape_all_sources
               (List.filter (λ f, if result f is Some _ then true else false) completed)
               api_jobs.
Proof.
  cbn zeta. rewrite !scrape_all_sources_eq. split_and!.
  - done.
  - intros j. by rewrite elem_of_app, elem_of_returned.
  - f_equal. f_equal. induction completed as [|[jobs|e] completed IH]; simpl.
    + done.
    + f_equal. exact IH.
    + exact IH.
Qed.

End OrchestratorFacts.

(** ** Relevance scorer *)

Module ScorerFacts.
Import Text Salary SalaryFacts Scorer.

Lemma strip_prefix_lower p s rest :
  strip_prefix p s = Some rest →
  strip_prefix (lower p) (lower s) = Some (lower rest).
Proof.
  unfold lower. revert s. induction p as [|a p IH]; intros s; simpl.
  - by intros [= ->].
  - destruct s as [|b s]; [done|]. simpl.
    destruct (Ascii.eqb a b) eqn:Hab; [|done].
    apply Ascii.eqb_eq in Hab as ->. rewrite Ascii.eqb_refl. apply IH.
Qed.

(** A text that contains a word contains it case-insensitively. *)
Lemma contains_lower sub s :
  contains sub s = true → contains (lower sub) (lower s) = true.
Proof.
  induction s as [|c s IH]; cbn [contains].
  - destruct (strip_prefix sub "") eqn:Hp; [|done].
    intros _. apply strip_prefix_lower in Hp.
    change (lower "") with "" in *. cbn [contains]. by rewrite Hp.
  - destruct (strip_prefix sub (String c s)) eqn:Hp.
    + intros _. apply strip_prefix_lower in Hp.
      change (lower (String c s)) with (String (lower_ascii c) (lower s)) in *.
      cbn [contains]. by rewrite Hp.
    + intros Hs. change (lower (String c s)) with (String (lower_ascii c) (lower s)).
      cbn [contains]. rewrite (IH Hs). by case_match.
Qed.

Lemma add_hits_nonneg points terms text score :
  0 <= points → 0 <= score → 0 <= add_hits points terms text score.
Proof.
  intros Hp. unfold add_hits. revert score.
  induction terms as [|t terms IH]; intros score Hs; simpl; [done|].
  apply IH. destruct (contains t text); lia.
Qed.

Lemma salary_tier_nonneg q : 0 <= salary_tier q.
Proof. unfold salary_tier. repeat case_match; lia. Qed.

Lemma calculate_relevance_score_nonneg j search_keywords location_keywords :
  0 <= (calculate_relevance_score j search_keywords location_keywords).1.
Proof.
  unfold calculate_relevance_score.
  set (s4 := add_hits 7 _ _ _).
  assert (0 <= s4) as H4 by (repeat apply add_hits_nonneg; lia).
  pose proof (salary_tier_nonneg (parse_salary_to_number (salary j))).
  repeat case_match; simpl; lia.
Qed.

(** C3: the documented scoring scenario.  For a record titled
    "Senior Python Developer", located "Remote", with salary "$140,000",
    whose summary contains "Python" and "AWS" (and whose company name
    holds neither keyword), scored against the keywords "Python, AWS" and
    the location keyword "Remote", the components are 15 for the title,
    5 + 5 for the summary, 7 for the location, and the score is
    15 + 5 + 5 + 7 + 5 + 8 + 10 + 12 = 67, the salary resolving to 140000
    with tier bonus 12. *)
Theorem C3_scoring_scenario (j : job) :
  title j = "Senior Python Developer" →
  salary j = "$140,000" →
  location j = "Remote" →
  contains "Python" (summary j) = true →
  contains "AWS" (summary j) = true →
  contains "python" (lower (company j)) = false →
  contains "aws" (lower (company j)) = false →
  let search_terms := split_terms "Python, AWS" in
  let location_terms := split_terms "Remote" in
  search_terms = ["python"; "aws"]
  ∧ add_hits 15 search_terms (lower (title j)) 0 = 15
  ∧ add_hits 8 search_terms (lower (company j)) 0 = 0
  ∧ add_hits 5 search_terms (lower (summary j)) 0 = 5 + 5
  ∧ add_hits 7 location_terms (lower (location j)) 0 = 7
  ∧ any_in ["senior"; "lead"; "principal"] (lower (title j)) = true
  ∧ any_in ["remote"; "work from home"] (lower (location j)) = true
  ∧ (parse_salary_to_number (salary j) == 140000)%Q
  ∧ salary_tier (parse_salary_to_number (salary j)) = 12
  ∧ (calculate_relevance_score j "Python, AWS" "Remote").1
    = 15 + 5 + 5 + 7 + 5 + 8 + 10 + 12
  ∧ (calculate_relevance_score j "Python, AWS" "Remote").1 = 67.
Proof.
  intros Ht Hs Hl Hpy%contains_lower Haws%contains_lower Hcpy Hcaws.
  change (lower "Python") with "python" in Hpy.
  change (lower "AWS") with "aws" in Haws.
  assert (split_terms "Python, AWS" = ["python"; "aws"]) as Hterms
    by (vm_compute; reflexivity).
  assert (split_terms "Remote" = ["remote"]) as Hloc
    by (vm_compute; reflexivity).
  cbn zeta. unfold calculate_relevance_score.
  rewrite Ht, Hs, Hl, Hterms, Hloc. unfold add_hits. cbn [foldl].
  rewrite Hpy, Haws, Hcpy, Hcaws.
  repeat split; vm_compute; reflexivity.
Qed.

Lemma C3_scoring_scenario_witness :
  (calculate_relevance_score
     (Job "Senior Python Developer" "Acme Corp" "Remote" "$140,000"
          "Full-time" "Build services in Python and deploy them on AWS."
          "https://example.org/job/1" "Indeed" "2026-01-01 00:00:00"
          "Python Developer" "Remote" None None)
     "Python, AWS" "Remote").1 = 67.
Proof.
  apply C3_scoring_scenario; reflexivity.
Defined.


(** C10, the claim as stated fails: the call stores the parsed salary in
    the record it is given.  A record as an adapter builds it has no
    [salary_numeric] before the call and 140000 after it. *)
Lemma C10_counterexample :
  let j := Job "Senior Python Developer" "Acme Corp" "Remote" "$140,000"
               "Full-time" "Python and AWS" "https://example.org/job/1"
               "Indeed" "2026-01-01 00:00:00" "Python Developer" "Remote"
               None None in
  let j' := (calculate_relevance_score j "Python, AWS" "Remote").2 in
  salary_numeric j = None
  ∧ salary_numeric j' = Some 140000%Q
  ∧ j' ≠ j.
Proof. vm_compute. repeat split. discriminate. Qed.

(** C10 as amended: the score is a function of the record and the
    criteria and is a non-negative integer; the call leaves every key of
    the record as it was except [salary_numeric], in which it stores the
    parsed salary; scoring the record it leaves behind gives the same
    score and changes nothing more. *)
Theorem C10_scorer_writes_only_salary_numeric (j : job)
    (search_keywords location_keywords : string) :
  let score := (calculate_relevance_score j search_keywords location_keywords).1 in
  let j' := (calculate_relevance_score j search_keywords location_keywords).2 in
  0 <= score
  ∧ (title j' = title j ∧ company j' = company j ∧ location j' = location j
     ∧ salary j' = salary j ∧ job_type j' = job_type j
     ∧ summary j' = summary j ∧ url j' = url j ∧ source j' = source j
     ∧ scraped_at j' = scraped_at j ∧ search_term j' = search_term j
     ∧ search_location j' = search_location j
     ∧ ai_analysis j' = ai_analysis j)
  ∧ (∃ v, salary_numeric j' = Some v
          ∧ (v == parse_salary_to_number (salary j))%Q)
  ∧ calculate_relevance_score j' search_keywords location_keywords = (score, j').
Proof.
  cbn zeta. split; [apply calculate_relevance_score_nonneg|].
  pose proof (parse_salary_to_number_nonneg (salary j)) as Hnn.
  unfold calculate_relevance_score.
  destruct (Qlt_bool 0 (parse_salary_to_number (salary j))) eqn:Hpos.
  - cbn [fst snd set_salary_numeric title company location salary job_type
         summary url source scraped_at search_term search_location
         ai_analysis salary_numeric].
    rewrite Hpos. split_and!; try done. by eexists.
  - cbn [fst snd set_salary_numeric title company location salary job_type
         summary url source scraped_at search_term search_location
         ai_analysis salary_numeric].
    rewrite Hpos. split_and!; try done.
    eexists; split; [done|].
    apply Qle_antisym; [done|].
    apply Qnot_lt_le. intros Hlt%Qlt_bool_iff. congruence.
Qed.

End ScorerFacts.

(** ** Frame operations *)

Module FrameFacts.
Import Frame.

Section Sorting.
Context {A : Type} (key : A → Q).

Lemma insert_desc_perm x l : insert_desc key x l ≡ₚ x :: l.
Proof.
  induction l as [|y l IH]; simpl; [done|].
  destruct (Qle_bool (key y) (key x)); [done|].
  rewrite IH. apply Permutation_swap.
Qed.

Lemma sort_values_perm l : sort_values key l ≡ₚ l.
Proof.
  induction l as [|x l IH]; simpl; [done|].
  unfold sort_values in *. by rewrite insert_desc_perm, IH.
Qed.

Lemma sort_values_length l : length (sort_values key l) = length l.
Proof. apply Permutation_length, sort_values_perm. Qed.

Lemma insert_desc_sorted x l :
  StronglySorted (ge_key key) l → StronglySorted (ge_key key) (insert_desc key x l).
Proof.
  induction 1 as [|y l Hl IH Hy]; simpl.
  - by repeat constructor.
  - destruct (Qle_bool (key y) (key x)) eqn:Hle.
    + apply Qle_bool_iff in Hle.
      constructor; [by constructor|].
      constructor; [done|].
      eapply Forall_impl; [exact Hy|].
      unfold ge_key. intros z Hz. by eapply Qle_trans.
    + constructor; [done|].
      rewrite insert_desc_perm. constructor; [|done].
      unfold ge_key. apply Qlt_le_weak, Qnot_le_lt.
      intros ?%Qle_bool_iff. congruence.
Qed.

Lemma sort_values_sorted l : StronglySorted (ge_key key) (sort_values key l).
Proof.
  induction l as [|x l IH]; simpl; [constructor|].
  by apply insert_desc_sorted.
Qed.

Lemma sorted_descending l : StronglySorted (ge_key key) l → descending key l.
Proof.
  induction 1 as [|z l Hl IH Hz]; intros i j x y Hij Hi Hj.
  - by rewrite lookup_nil in Hi.
  - destruct j as [|j]; [lia|]. simpl in Hj.
    destruct i as [|i]; simpl in Hi.
    + injection Hi as <-.
      rewrite Forall_forall in Hz. apply Hz.
      by eapply list_elem_of_lookup_2.
    + eapply (IH i j); [lia|done..].
Qed.

Lemma sort_values_descending l : descending key (sort_values key l).
Proof. apply sorted_descending, sort_values_sorted. Qed.


End Sorting.

Section AssignRange.
Context {A : Type} (set : nat → A → A).

Lemma assign_range_length start l :
  length (assign_range set start l) = length l.
Proof.
  unfold assign_range. rewrite length_zip_with, length_seq. lia.
Qed.

Lemma assign_range_lookup start l i :
  assign_range set start l !! i = set (start + i) <$> l !! i.
Proof.
  unfold assign_range. rewrite lookup_zip_with.
  destruct (l !! i) as [x|] eqn:Hx.
  - rewrite lookup_seq_lt by (by eapply lookup_lt_Some). done.
  - by destruct (seq start (length l) !! i).
Qed.

(** A column that [set] does not touch is left as it was. *)
Lemma assign_range_fmap {B} (f : A → B) start l :
  (∀ n x, f (set n x) = f x) →
  f <$> assign_range set start l = f <$> l.
Proof.
  intros Hf. apply list_eq. intros i.
  rewrite !list_lookup_fmap, assign_range_lookup.
  destruct (l !! i); simpl; by rewrite ?Hf.
Qed.

Lemma assign_range_descending (key : A → Q) start l :
  (∀ n x, key (set n x) = key x) →
  descending key l → descending key (assign_range set start l).
Proof.
  intros Hk Hl i j x y Hij.
  rewrite !assign_range_lookup.
  destruct (l !! i) as [x'|] eqn:Hi; [|done].
  destruct (l !! j) as [y'|] eqn:Hj; [|done].
  intros [= <-] [= <-]. rewrite !Hk. by eapply Hl.
Qed.
End AssignRange.




(** ** [drop_duplicates] *)

Lemma drop_duplicates_from_sublist jobs : ∀ seen,
  drop_duplicates_from seen jobs `sublist_of` jobs.
Proof.
  induction jobs as [|j jobs IH]; intros seen; simpl; [done|].
  case_decide; [apply sublist_cons | apply sublist_skip]; apply IH.
Qed.

Lemma drop_duplicates_from_keys jobs : ∀ seen k,
  k ∈ dedup_key <$> drop_duplicates_from seen jobs → k ∉ seen.
Proof.
  induction jobs as [|j jobs IH]; intros seen k; simpl.
  - by intros ?%elem_of_nil.
  - case_decide as Hseen; [apply IH|].
    rewrite fmap_cons, elem_of_cons. intros [-> | Hk]; [done|].
    apply IH in Hk. set_solver.
Qed.

Lemma drop_duplicates_from_NoDup jobs : ∀ seen,
  NoDup (dedup_key <$> drop_duplicates_from seen jobs).
Proof.
  induction jobs as [|j jobs IH]; intros seen; simpl; [constructor|].
  case_decide; [apply IH|].
  rewrite fmap_cons. constructor; [|apply IH].
  intros Hk%drop_duplicates_from_keys. set_solver.
Qed.

(** Every key of the input is either already seen or kept. *)
Lemma drop_duplicates_from_covers jobs : ∀ seen j,
  j ∈ jobs →
  dedup_key j ∈ seen ∨ dedup_key j ∈ dedup_key <$> drop_duplicates_from seen jobs.
Proof.
  induction jobs as [|j0 jobs IH]; intros seen j; simpl.
  - by intros ?%elem_of_nil.
  - intros [-> | Hj]%elem_of_cons.
    + case_decide; [by left|]. right. rewrite fmap_cons. left.
    + case_decide; [by apply IH|].
      rewrite fmap_cons.
      destruct (IH ({[dedup_key j0]} ∪ seen) j Hj) as [Hs | Hk].
      * apply elem_of_union in Hs as [->%elem_of_singleton | Hs].
        -- right. left.
        -- by left.
      * right. by right.
Qed.

(** The first record with a given key is the one that is kept. *)
Lemma drop_duplicates_from_first l1 : ∀ seen j l2,
  dedup_key j ∉ seen →
  dedup_key j ∉ dedup_key <$> l1 →
  j ∈ drop_duplicates_from seen (l1 ++ j :: l2).
Proof.
  induction l1 as [|a l1 IH]; intros seen j l2 Hseen Hl1; simpl.
  - case_decide; [done|]. left.
  - rewrite fmap_cons, not_elem_of_cons in Hl1. destruct Hl1 as [Hne Hl1].
    case_decide; [by apply IH|].
    right. apply IH; [|done].
    by rewrite not_elem_of_union, not_elem_of_singleton.
Qed.

End FrameFacts.


(** ** The pipeline *)

Module PipelineFacts.
Import Text Salary SalaryFacts Scorer ScorerFacts Frame FrameFacts.
Import Pipeline Stages Inputs.

Section Rows.
Context (P : row → Prop).

Lemma assign_range_Forall (set : nat → row → row) start l :
  (∀ n r, P r → P (set n r)) →
  Forall P l → Forall P (assign_range set start l).
Proof.
  intros Hset Hl. apply Forall_lookup. intros i r.
  rewrite assign_range_lookup.
  destruct (l !! i) as [r'|] eqn:Hi; [|done]. intros [= <-].
  apply Hset. by eapply Forall_lookup_1.
Qed.

Lemma sort_values_Forall key (l : list row) :
  Forall P l → Forall P (sort_values key l).
Proof. by rewrite sort_values_perm. Qed.

(** A property of rows that ignores [ai_rank] holds after the AI
    ranking when the enriched head and the remaining tail have it. *)
Lemma ai_enhanced_job_ranking_Forall jobs_df :
  (∀ n r, P r → P (set_ai_rank n r)) →
  Forall P (enrich <$> take 20 jobs_df) →
  Forall P (keep_baseline <$> drop 20 jobs_df) →
  Forall P (ai_enhanced_job_ranking jobs_df).
Proof.
  intros Hset Htop Hrest. unfold ai_enhanced_job_ranking.
  apply Forall_app. split.
  - by apply assign_range_Forall, sort_values_Forall.
  - by apply assign_range_Forall.
Qed.
End Rows.

Lemma ai_enhanced_job_ranking_rec jobs_df :
  rec <$> ai_enhanced_job_ranking jobs_df ≡ₚ rec <$> jobs_df.
Proof.
  unfold ai_enhanced_job_ranking.
  rewrite fmap_app, !(assign_range_fmap set_ai_rank rec) by done.
  rewrite sort_values_perm, <- !list_fmap_compose.
  rewrite <- (take_drop 20 jobs_df) at 3. by rewrite fmap_app.
Qed.


Lemma scored_rec ai jobs kw loc use_ai :
  rec <$> scored ai jobs kw loc use_ai = cleaned jobs.
Proof.
  unfold scored. destruct use_ai.
  - apply list_eq. intros i.
    rewrite list_lookup_fmap, list_lookup_imap.
    by destruct (cleaned jobs !! i).
  - rewrite <- list_fmap_compose. apply list_fmap_id.
Qed.

Lemma process_and_rank_jobs_unfold ai jobs kw loc use_ai :
  (process_and_rank_jobs ai jobs kw loc use_ai).1
  = if use_ai
    then assign_range set_rank 1
           (sort_values final_score
              (ai_enhanced_job_ranking (scored ai jobs kw loc true)))
    else assign_range set_rank 1
           (sort_values (λ r, inject_Z (relevance_score r))
              (scored ai jobs kw loc false)).
Proof.
  destruct jobs as [|j jobs]; [by destruct use_ai|].
  unfold process_and_rank_jobs. by destruct use_ai.
Qed.

Lemma rank_assign_range start (l : list row) :
  rank <$> assign_range set_rank start l = Some <$> seq start (length l).
Proof.
  apply list_eq. intros i.
  rewrite !list_lookup_fmap, assign_range_lookup.
  destruct (l !! i) as [r|] eqn:Hi; simpl.
  - rewrite lookup_seq_lt by (by eapply lookup_lt_Some). done.
  - rewrite lookup_seq_ge by (by apply lookup_ge_None). done.
Qed.

Lemma descending_ext {A} (key1 key2 : A → Q) l :
  Forall (λ x, key2 x = key1 x) l → descending key1 l → descending key2 l.
Proof.
  intros Hext Hl i j x y Hij Hi Hj.
  rewrite (Forall_lookup_1 _ _ _ _ Hext Hi), (Forall_lookup_1 _ _ _ _ Hext Hj).
  by eapply Hl.
Qed.

Lemma scored_baseline_no_ai_columns ai jobs kw loc :
  Forall (λ r, final_ai_score r = None) (scored ai jobs kw loc false).
Proof. unfold scored. apply Forall_fmap. by apply Forall_true. Qed.

Lemma process_and_rank_jobs_rank ai jobs kw loc use_ai :
  let out := (process_and_rank_jobs ai jobs kw loc use_ai).1 in
  rank <$> out = Some <$> seq 1 (length out).
Proof.
  cbn zeta. rewrite process_and_rank_jobs_unfold.
  destruct use_ai; by rewrite rank_assign_range, assign_range_length.
Qed.

Lemma process_and_rank_jobs_descending ai jobs kw loc use_ai :
  descending final_score (process_and_rank_jobs ai jobs kw loc use_ai).1.
Proof.
  rewrite process_and_rank_jobs_unfold. destruct use_ai.
  - apply assign_range_descending; [done|]. apply sort_values_descending.
  - apply assign_range_descending; [done|].
    eapply descending_ext; [|apply sort_values_descending].
    apply sort_values_Forall.
    eapply Forall_impl; [apply scored_baseline_no_ai_columns|].
    intros r Hr. unfold final_score. by rewrite Hr.
Qed.

(** C7: in the frame that [process_and_rank_jobs] returns, with [N] rows,
    the [rank] column is 1, 2, ..., [N] in frame order, and the final
    score does not increase along the frame, that is as the rank
    increases. *)
Theorem C7_rank_dense_final_score_descending (ai : ai_service)
    (jobs : list job) (search_keywords location_keywords : string)
    (use_ai : bool) :
  let out := (process_and_rank_jobs ai jobs search_keywords
                                    location_keywords use_ai).1 in
  rank <$> out = Some <$> seq 1 (length out)
  ∧ descending final_score out.
Proof.
  split.
  - apply process_and_rank_jobs_rank.
  - apply process_and_rank_jobs_descending.
Qed.

(** C2, the claim as stated fails: [drop_duplicates] compares the title
    and the company exactly.  Two records that differ only in letter case
    are both kept, with or without the AI stages. *)
Lemma C2_counterexample :
  let jobs := [posting "Python Developer" "Acme" "Not specified" "";
               posting "python developer" "ACME" "Not specified" ""] in
  ¬ NoDup (normalized_key <$>
             (rec <$> (process_and_rank_jobs ai_down jobs "python" "" false).1))
  ∧ ¬ NoDup (normalized_key <$>
               (rec <$> (process_and_rank_jobs ai_down jobs "python" "" true).1)).
Proof.
  cbn zeta. split; vm_compute; intros [Hnotin _]%NoDup_cons;
    apply Hnotin; left.
Qed.

(** C2 as amended: the returned frame has at most as many rows as the
    input has records; its records are, up to order, the cleaned forms of
    the records kept by [drop_duplicates]; the kept records are a
    subsequence of the input in which no two share the exact pair of title
    and company, every pair of the input is represented, and the record
    kept for a pair is the first one that carries it.  When the titles and
    companies arrive trimmed, no two records of the returned frame share
    the exact pair of title and company. *)
Theorem C2_exact_key_deduplication (ai : ai_service) (jobs : list job)
    (search_keywords location_keywords : string) (use_ai : bool) :
  let out := (process_and_rank_jobs ai jobs search_keywords
                                    location_keywords use_ai).1 in
  (length out ≤ length jobs)%nat
  ∧ rec <$> out ≡ₚ clean_data <$> drop_duplicates jobs
  ∧ drop_duplicates jobs `sublist_of` jobs
  ∧ NoDup (dedup_key <$> drop_duplicates jobs)
  ∧ (∀ j, j ∈ jobs → dedup_key j ∈ dedup_key <$> drop_duplicates jobs)
  ∧ (∀ l1 j l2, jobs = l1 ++ j :: l2 → dedup_key j ∉ dedup_key <$> l1 →
                j ∈ drop_duplicates jobs)
  ∧ (Forall (λ j, strip (title j) = title j ∧ strip (company j) = company j)
            jobs →
     NoDup (dedup_key <$> (rec <$> out))).
Proof.
  cbn zeta.
  assert (rec <$> (process_and_rank_jobs ai jobs search_keywords
                     location_keywords use_ai).1
          ≡ₚ clean_data <$> drop_duplicates jobs) as Hperm.
  { rewrite process_and_rank_jobs_unfold. destruct use_ai.
    - rewrite (assign_range_fmap set_rank rec) by done.
      rewrite sort_values_perm, ai_enhanced_job_ranking_rec.
      by rewrite scored_rec.
    - rewrite (assign_range_fmap set_rank rec) by done.
      rewrite sort_values_perm. by rewrite scored_rec. }
  pose proof (drop_duplicates_from_sublist jobs ∅) as Hsub.
  split_and!.
  - apply Permutation_length in Hperm. rewrite !length_fmap in Hperm.
    rewrite Hperm. by apply sublist_length.
  - done.
  - done.
  - apply drop_duplicates_from_NoDup.
  - intros j Hj.
    destruct (drop_duplicates_from_covers jobs ∅ j Hj) as [?%elem_of_empty|]; done.
  - intros l1 j l2 -> Hl1. by apply drop_duplicates_from_first.
  - intros Htrim. rewrite Hperm.
    assert (dedup_key <$> (clean_data <$> drop_duplicates jobs)
            = dedup_key <$> drop_duplicates jobs) as ->.
    { rewrite <- list_fmap_compose. apply Forall_fmap_ext.
      apply Forall_forall. intros j Hj%(sublist_subseteq _ _ Hsub).
      rewrite Forall_forall in Htrim. destruct (Htrim j Hj) as [Ht Hc].
      unfold dedup_key. simpl. by rewrite Ht, Hc. }
    apply drop_duplicates_from_NoDup.
Qed.

Lemma C2_exact_key_deduplication_witness :
  let jobs := [java_developer; senior_clerk; senior_clerk] in
  senior_clerk ∈ drop_duplicates jobs
  ∧ NoDup (dedup_key <$>
             (rec <$> (process_and_rank_jobs ai_down jobs "java" "" true).1)).
Proof.
  pose proof (C2_exact_key_deduplication
                ai_down [java_developer; senior_clerk; senior_clerk]
                "java" "" true) as (_ & _ & _ & _ & _ & Hfirst & Htrimmed).
  split.
  - apply (Hfirst [java_developer] senior_clerk [senior_clerk]).
    + reflexivity.
    + vm_compute. intros [[=] | ?%elem_of_nil]%elem_of_cons. done.
  - apply Htrimmed. repeat constructor.
Defined.

Lemma enrich_rec (jobs_df : list row) :
  rec <$> (enrich <$> jobs_df) = rec <$> jobs_df.
Proof. by rewrite <- list_fmap_compose. Qed.

Lemma keep_baseline_rec (jobs_df : list row) :
  rec <$> (keep_baseline <$> jobs_df) = rec <$> jobs_df.
Proof. by rewrite <- list_fmap_compose. Qed.








Lemma enrich_blended r : blended (enrich r).
Proof. by split. Qed.

Lemma keep_baseline_unblended r : unblended (keep_baseline r).
Proof. by split. Qed.


(** The handler of [ai_enhanced_job_ranking] cannot finish on the frame
    [process_and_rank_jobs] passes: that frame has no [rank] column yet. *)
Lemma ai_enhanced_job_ranking_handler_raises ai jobs kw loc use_ai :
  jobs ≠ [] →
  ai_enhanced_job_ranking_handler (scored ai jobs kw loc use_ai) = None.
Proof.
  intros Hjobs. unfold scored, cleaned, drop_duplicates.
  destruct jobs as [|j jobs]; [done|]. simpl.
  rewrite decide_False by apply not_elem_of_empty.
  by destruct use_ai.
Qed.




(** What [ai_enhanced_job_ranking] does on every frame: the rows it
    enriches are the first twenty rows of the frame it is given, in the
    order of that frame, whatever their relevance scores; the other rows
    keep their relevance score as final score. *)
Lemma ai_enhanced_job_ranking_slice jobs_df :
  ∃ top_jobs remaining_jobs,
    ai_enhanced_job_ranking jobs_df = top_jobs ++ remaining_jobs
    ∧ Forall blended top_jobs
    ∧ Forall unblended remaining_jobs
    ∧ rec <$> top_jobs ≡ₚ rec <$> take 20 jobs_df
    ∧ rec <$> remaining_jobs = rec <$> drop 20 jobs_df.
Proof.
  eexists _, _. split; [reflexivity|]. split_and!.
  - apply assign_range_Forall; [intros n r H; exact H|].
    apply sort_values_Forall, Forall_fmap, Forall_true, enrich_blended.
  - apply assign_range_Forall; [intros n r H; exact H|].
    apply Forall_fmap, Forall_true, keep_baseline_unblended.
  - rewrite (assign_range_fmap set_ai_rank rec) by done.
    by rewrite sort_values_perm, enrich_rec.
  - rewrite (assign_range_fmap set_ai_rank rec) by done.
    apply keep_baseline_rec.
Qed.


End PipelineFacts.

(** * Further properties *)

From Stdlib Require Import Lqa.

(** ** Text: letter case and removed characters *)

Module CaseFacts.
Import Text TextFacts.

Lemma lower_upper_ascii c : lower_ascii (upper_ascii c) = lower_ascii c.
Proof. destruct c as [[] [] [] [] [] [] [] []]; reflexivity. Qed.

Lemma lower_lower_ascii c : lower_ascii (lower_ascii c) = lower_ascii c.
Proof. destruct c as [[] [] [] [] [] [] [] []]; reflexivity. Qed.

Lemma upper_upper_ascii c : upper_ascii (upper_ascii c) = upper_ascii c.
Proof. destruct c as [[] [] [] [] [] [] [] []]; reflexivity. Qed.

Lemma is_space_upper_ascii c : is_space (upper_ascii c) = is_space c.
Proof. destruct c as [[] [] [] [] [] [] [] []]; reflexivity. Qed.



Lemma upper_ascii_comma c : Ascii.eqb (upper_ascii c) "," = Ascii.eqb c ",".
Proof. destruct c as [[] [] [] [] [] [] [] []]; reflexivity. Qed.

Lemma lower_ascii_dollar c : Ascii.eqb (lower_ascii c) "$" = Ascii.eqb c "$".
Proof. destruct c as [[] [] [] [] [] [] [] []]; reflexivity. Qed.

Lemma lower_ascii_comma c : Ascii.eqb (lower_ascii c) "," = Ascii.eqb c ",".
Proof. destruct c as [[] [] [] [] [] [] [] []]; reflexivity. Qed.

Lemma smap_smap f g s : smap f (smap g s) = smap (λ c, f (g c)) s.
Proof. induction s as [|c s IH]; simpl; [done|]. by rewrite IH. Qed.

Lemma smap_ext f g s : (∀ c, f c = g c) → smap f s = smap g s.
Proof. intros H. induction s as [|c s IH]; simpl; [done|]. by rewrite H, IH. Qed.


Lemma lower_upper s : lower (upper s) = lower s.
Proof.
  unfold lower, upper. rewrite smap_smap. apply smap_ext, lower_upper_ascii.
Qed.

Lemma lower_lower s : lower (lower s) = lower s.
Proof.
  unfold lower. rewrite smap_smap. apply smap_ext, lower_lower_ascii.
Qed.

Lemma upper_upper s : upper (upper s) = upper s.
Proof.
  unfold upper. rewrite smap_smap. apply smap_ext, upper_upper_ascii.
Qed.

(** Removing a character commutes with a change of case that neither
    produces nor consumes that character. *)
Lemma remove_char_smap f c s :
  (∀ a, Ascii.eqb (f a) c = Ascii.eqb a c) →
  remove_char c (smap f s) = smap f (remove_char c s).
Proof.
  intros Hf. induction s as [|a s IH]; simpl; [done|].
  rewrite Hf. destruct (Ascii.eqb a c); simpl; by rewrite IH.
Qed.

Lemma remove_char_idemp c s : remove_char c (remove_char c s) = remove_char c s.
Proof.
  induction s as [|a s IH]; simpl; [done|].
  destruct (Ascii.eqb a c) eqn:Ha; simpl; [done|]. by rewrite Ha, IH.
Qed.

Lemma remove_char_comm c d s :
  remove_char c (remove_char d s) = remove_char d (remove_char c s).
Proof.
  induction s as [|a s IH]; simpl; [done|].
  destruct (Ascii.eqb a d) eqn:Hd, (Ascii.eqb a c) eqn:Hc; simpl;
    rewrite ?Hd, ?Hc, ?IH; done.
Qed.

End CaseFacts.

(** ** Salary normaliser, continued *)

Module SalaryMore.
Import Text TextFacts CaseFacts Salary SalaryFacts.

(** The result is determined by the cleaned text alone: the two sentinels
    clean to texts without a digit. *)
Lemma parse_salary_to_number_clean s :
  parse_salary_to_number s = default 0%Q (parse_clean (clean s)).
Proof.
  unfold parse_salary_to_number.
  destruct (String.eqb s "") eqn:H1.
  { apply String.eqb_eq in H1 as ->. reflexivity. }
  destruct (String.eqb s "Not specified") eqn:H2.
  { apply String.eqb_eq in H2 as ->. reflexivity. }
  simpl. by destruct (parse_clean (clean s)).
Qed.

Lemma clean_remove_dollar s : clean (remove_char "$" s) = clean s.
Proof.
  unfold clean, lower.
  rewrite <- (remove_char_smap lower_ascii "$" s lower_ascii_dollar).
  by rewrite remove_char_idemp.
Qed.

Lemma clean_remove_comma s : clean (remove_char "," s) = clean s.
Proof.
  unfold clean, lower.
  rewrite <- (remove_char_smap lower_ascii "," s lower_ascii_comma).
  rewrite (remove_char_comm "$" ","), remove_char_idemp.
  by rewrite (remove_char_comm "," "$").
Qed.

(** X1: dollar signs and commas carry no information: deleting every "$"
    and every "," from a salary text leaves its value unchanged. *)
Theorem parse_salary_ignores_dollar_and_comma (salary_text : string) :
  parse_salary_to_number (remove_char "$" salary_text)
  = parse_salary_to_number salary_text
  ∧ parse_salary_to_number (remove_char "," salary_text)
    = parse_salary_to_number salary_text.
Proof.
  rewrite !parse_salary_to_number_clean.
  by rewrite clean_remove_dollar, clean_remove_comma.
Qed.

Lemma parse_salary_to_number_upper s :
  parse_salary_to_number (upper s) = parse_salary_to_number s.
Proof.
  rewrite !parse_salary_to_number_clean. unfold clean. by rewrite lower_upper.
Qed.

Lemma parse_salary_to_number_lower s :
  parse_salary_to_number (lower s) = parse_salary_to_number s.
Proof.
  rewrite !parse_salary_to_number_clean. unfold clean. by rewrite lower_lower.
Qed.

(** X2: the value of a salary text does not depend on letter case. *)
Theorem parse_salary_case_insensitive (salary_text : string) :
  parse_salary_to_number (upper salary_text)
  = parse_salary_to_number salary_text
  ∧ parse_salary_to_number (lower salary_text)
    = parse_salary_to_number salary_text.
Proof.
  split; [apply parse_salary_to_number_upper|apply parse_salary_to_number_lower].
Qed.










End SalaryMore.

(** ** Collection orchestrator, continued *)

Module OrchestratorMore.
Import Orchestrator OrchestratorFacts Summary.

Lemma returned_records_perm (completed completed' : list future) :
  completed ≡ₚ completed' →
  concat (omap result completed) ≡ₚ concat (omap result completed').
Proof.
  induction 1 as [|f l l' _ IH|f g l|l l' l'' _ IH1 _ IH2]; simpl.
  - done.
  - destruct (result f); simpl; [by rewrite IH|done].
  - destruct (result f), (result g); simpl; try done.
    rewrite !app_assoc. f_equiv. apply Permutation_app_comm.
  - by etrans.
Qed.

(** X5: the order in which the futures complete changes only the order of
    the merged records: two completion orders of the same futures give the
    same records, each as many times, and the number of merged records is
    the sum over the futures that returned plus the API records. *)
Theorem scrape_all_sources_completion_order (completed completed' : list future)
    (api_jobs : list job) :
  completed ≡ₚ completed' →
  Orchestrator.scrape_all_sources completed api_jobs
  ≡ₚ Orchestrator.scrape_all_sources completed' api_jobs
  ∧ length (Orchestrator.scrape_all_sources completed api_jobs)
    = (sum_list (length <$> omap result completed) + length api_jobs)%nat.
Proof.
  intros Hperm. rewrite !scrape_all_sources_eq. split.
  - by rewrite (returned_records_perm _ _ Hperm).
  - rewrite length_app. f_equal.
    clear. induction completed as [|[jobs|e] completed IH]; [done| |].
    + change (omap result (Returned jobs :: completed))
        with (jobs :: omap result completed).
      rewrite fmap_cons. cbn [concat sum_list sum_list_with].
      by rewrite length_app, IH.
    + exact IH.
Qed.

Lemma scrape_all_sources_completion_order_witness :
  Orchestrator.scrape_all_sources
    [Raised "timeout"; Returned [Inputs.senior_clerk]; Returned [Inputs.java_developer]] []
  ≡ₚ Orchestrator.scrape_all_sources
       [Returned [Inputs.java_developer]; Raised "timeout"; Returned [Inputs.senior_clerk]] [].
Proof.
  apply scrape_all_sources_completion_order.
  etrans; [apply Permutation_swap|].
  etrans; [apply Permutation_skip, Permutation_swap|].
  etrans; [apply Permutation_swap|].
  apply Permutation_skip, Permutation_swap.
Defined.

Lemma total_jobs_insert_fresh (m : gmap string nat) k n :
  m !! k = None → total_jobs (<[k:=n]> m) = (total_jobs m + n)%nat.
Proof.
  intros Hk. unfold total_jobs.
  rewrite map_fold_insert_L; [done| |done].
  intros. lia.
Qed.

Lemma total_jobs_delete (m : gmap string nat) k x :
  m !! k = Some x → total_jobs m = (total_jobs (delete k m) + x)%nat.
Proof.
  intros Hk. unfold total_jobs.
  rewrite (map_fold_delete_L _ _ k x m); [done| |done].
  intros. lia.
Qed.

(** Filing a count under a key that is already present replaces the
    earlier count. *)
Lemma total_jobs_insert_le (m : gmap string nat) k n :
  (total_jobs (<[k:=n]> m) ≤ total_jobs m + n)%nat.
Proof.
  destruct (m !! k) as [x|] eqn:Hk.
  - rewrite <- insert_delete_eq.
    rewrite total_jobs_insert_fresh by apply lookup_delete_eq.
    rewrite (total_jobs_delete m k x Hk). lia.
  - by rewrite total_jobs_insert_fresh.
Qed.

Lemma collect_total_le completed : ∀ all_jobs source_results,
  (total_jobs source_results ≤ length all_jobs)%nat →
  (total_jobs (foldl collect (all_jobs, source_results) completed).2
   ≤ length (foldl collect (all_jobs, source_results) completed).1)%nat.
Proof.
  induction completed as [|f completed IH]; intros all_jobs sr Hle; [done|].
  cbn [foldl]. destruct f as [[|j0 jobs]|e]; simpl.
  - apply IH. rewrite app_nil_r. done.
  - apply IH. rewrite length_app. simpl.
    pose proof (total_jobs_insert_le sr (source j0) (S (length jobs))). lia.
  - by apply IH.
Qed.

Lemma collect_total_eq completed : ∀ all_jobs source_results,
  total_jobs source_results = length all_jobs →
  NoDup (omap first_source completed) →
  (∀ k, k ∈ omap first_source completed → source_results !! k = None) →
  total_jobs (foldl collect (all_jobs, source_results) completed).2
  = length (foldl collect (all_jobs, source_results) completed).1
  ∧ ∀ k, (foldl collect (all_jobs, source_results) completed).2 !! k ≠ None →
         source_results !! k ≠ None ∨ k ∈ omap first_source completed.
Proof.
  induction completed as [|f completed IH]; intros all_jobs sr Heq Hnd Hfresh.
  { split; [done|]. intros k Hk. by left. }
  cbn [foldl]. destruct f as [[|j0 jobs]|e].
  - change (omap first_source (Returned [] :: completed))
      with (omap first_source completed) in *.
    simpl. rewrite app_nil_r. by apply IH.
  - change (omap first_source (Returned (j0 :: jobs) :: completed))
      with (source j0 :: omap first_source completed) in *.
    apply NoDup_cons in Hnd as [Hj0 Hnd]. simpl.
    destruct (IH (all_jobs ++ j0 :: jobs)
                 (<[source j0 := S (length jobs)]> sr)) as [IH1 IH2].
    + rewrite total_jobs_insert_fresh by (apply Hfresh; left).
      rewrite length_app. simpl. lia.
    + done.
    + intros k Hk. rewrite lookup_insert_ne; [apply Hfresh; by right|].
      intros <-. done.
    + split; [done|]. intros k Hk.
      destruct (IH2 k Hk) as [Hin | Hin]; [|right; by right].
      destruct (decide (source j0 = k)) as [<- | Hne]; [right; left|].
      left. by rewrite lookup_insert_ne in Hin.
  - change (omap first_source (Raised e :: completed))
      with (omap first_source completed) in *.
    simpl. by apply IH.
Qed.

Lemma summary_total_le (completed : list future) (api_jobs : list job) :
  (total_jobs (scrape_all_sources_state completed api_jobs).2
   ≤ length (scrape_all_sources_state completed api_jobs).1)%nat.
Proof.
  unfold scrape_all_sources_state.
  pose proof (collect_total_le completed [] ∅) as Hle.
  destruct (foldl collect ([], ∅) completed) as [all_jobs sr].
  simpl in *. specialize (Hle ltac:(done)).
  destruct api_jobs as [|a api_jobs]; simpl.
  - by rewrite app_nil_r.
  - rewrite length_app. simpl.
    pose proof (total_jobs_insert_le sr "APIs" (S (length api_jobs))). lia.
Qed.

Lemma summary_total_eq (completed : list future) (api_jobs : list job) :
  NoDup (omap first_source completed) →
  "APIs" ∉ omap first_source completed →
  total_jobs (scrape_all_sources_state completed api_jobs).2
  = length (scrape_all_sources_state completed api_jobs).1.
Proof.
  intros Hnd Hapi. unfold scrape_all_sources_state.
  pose proof (collect_total_eq completed [] ∅) as Heq.
  destruct (foldl collect ([], ∅) completed) as [all_jobs sr].
  simpl in *.
  destruct (Heq eq_refl Hnd ltac:(intros; apply lookup_empty)) as [Ht Hdom].
  destruct api_jobs as [|a api_jobs]; simpl.
  - by rewrite app_nil_r.
  - rewrite length_app. simpl.
    rewrite total_jobs_insert_fresh; [lia|].
    destruct (sr !! "APIs") eqn:Hsr; [|done].
    destruct (Hdom "APIs") as [Hin | Hin]; [by rewrite Hsr| |done].
    by rewrite lookup_empty in Hin.
Qed.

(** X6: the total that the summary prints never exceeds the number of
    merged records, because a count filed under a source name replaces an
    earlier count under the same name.  It equals the number of merged
    records when the futures that returned records carry pairwise
    different source names in their first record, none of them "APIs". *)
Theorem summary_total_jobs (completed : list future) (api_jobs : list job) :
  let all_jobs := (scrape_all_sources_state completed api_jobs).1 in
  let source_results := (scrape_all_sources_state completed api_jobs).2 in
  (total_jobs source_results ≤ length all_jobs)%nat
  ∧ (NoDup (omap first_source completed) →
     "APIs" ∉ omap first_source completed →
     total_jobs source_results = length all_jobs).
Proof.
  cbn zeta. split; [apply summary_total_le | apply summary_total_eq].
Qed.

Lemma summary_total_jobs_witness :
  let completed := [Returned [Inputs.senior_clerk; Inputs.java_developer];
                    Raised "timeout"; Returned []] in
  total_jobs (scrape_all_sources_state completed [Inputs.cloud_engineer]).2
  = length (scrape_all_sources_state completed [Inputs.cloud_engineer]).1.
Proof.
  apply summary_total_jobs.
  - vm_compute. repeat constructor. intros ?%elem_of_nil. done.
  - vm_compute. intros [[=] | ?%elem_of_nil]%elem_of_cons. done.
Defined.

End OrchestratorMore.

(** ** Relevance scorer, continued *)

Module ScorerMore.
Import Text TextFacts CaseFacts Salary SalaryFacts SalaryMore Scorer ScorerFacts.

Lemma add_hits_le points terms text score :
  0 <= points →
  add_hits points terms text score <= score + points * Z.of_nat (length terms).
Proof.
  intros Hp. unfold add_hits. revert score.
  induction terms as [|t terms IH]; intros score; simpl length; simpl foldl.
  - lia.
  - specialize (IH (if contains t text then score + points else score)).
    destruct (contains t text); lia.
Qed.

Lemma salary_tier_le q : salary_tier q <= 15.
Proof. unfold salary_tier. repeat case_match; lia. Qed.

(** X7: the score is bounded by the search criteria: with [n] search
    keywords and [m] location keywords it lies between 0 and
    [28 n + 7 m + 38]: 15, 8 and 5 per search keyword, 7 per location
    keyword, at most 5 for the level, 8 for remote work and 25 for the
    salary. *)
Theorem calculate_relevance_score_bounds (j : job)
    (search_keywords location_keywords : string) :
  let n := Z.of_nat (length (split_terms search_keywords)) in
  let m := Z.of_nat (length (split_terms location_keywords)) in
  0 <= (calculate_relevance_score j search_keywords location_keywords).1
    <= 28 * n + 7 * m + 38.
Proof.
  cbn zeta. split; [apply calculate_relevance_score_nonneg|].
  unfold calculate_relevance_score.
  set (st := split_terms search_keywords).
  set (lt := split_terms location_keywords).
  pose proof (add_hits_le 15 st (lower (title j)) 0 ltac:(lia)) as H1.
  set (s1 := add_hits 15 st (lower (title j)) 0) in *.
  pose proof (add_hits_le 8 st (lower (company j)) s1 ltac:(lia)) as H2.
  set (s2 := add_hits 8 st (lower (company j)) s1) in *.
  pose proof (add_hits_le 5 st (lower (summary j)) s2 ltac:(lia)) as H3.
  set (s3 := add_hits 5 st (lower (summary j)) s2) in *.
  pose proof (add_hits_le 7 lt (lower (location j)) s3 ltac:(lia)) as H4.
  set (s4 := add_hits 7 lt (lower (location j)) s3) in *.
  pose proof (salary_tier_le (parse_salary_to_number (salary j))).
  repeat case_match; simpl; lia.
Qed.

Lemma lstrip_upper s : lstrip (upper s) = upper (lstrip s).
Proof.
  unfold upper. induction s as [|c s IH]; simpl; [done|].
  rewrite is_space_upper_ascii. by destruct (is_space c).
Qed.

Lemma rstrip_upper s : rstrip (upper s) = upper (rstrip s).
Proof.
  unfold upper. induction s as [|c s IH]; simpl; [done|].
  rewrite IH, is_space_upper_ascii.
  destruct (rstrip s); simpl; [by destruct (is_space c)|done].
Qed.

Lemma strip_upper s : strip (upper s) = upper (strip s).
Proof. unfold strip. by rewrite lstrip_upper, rstrip_upper. Qed.

Lemma upper_empty s : String.eqb (upper s) "" = String.eqb s "".
Proof. by destruct s. Qed.

Lemma split_on_comma_upper s :
  split_on "," (upper s) = upper <$> split_on "," s.
Proof.
  unfold upper. induction s as [|c s IH]; simpl; [done|].
  rewrite upper_ascii_comma, IH.
  destruct (Ascii.eqb c ","); [done|].
  by destruct (split_on "," s).
Qed.

Lemma split_terms_upper keywords : split_terms (upper keywords) = split_terms keywords.
Proof.
  unfold split_terms. rewrite split_on_comma_upper.
  induction (split_on "," keywords) as [|kw l IH]; [done|].
  rewrite fmap_cons. cbn [List.filter].
  rewrite strip_upper, upper_empty.
  destruct (String.eqb (strip kw) ""); simpl; [exact IH|].
  rewrite strip_upper, lower_upper. f_equal. exact IH.
Qed.

(** X8: scoring is case-insensitive throughout: writing the title, the
    company, the location, the salary and the summary of a record and both
    keyword lists in capital letters leaves the score unchanged. *)
Theorem calculate_relevance_score_case_insensitive (j : job)
    (search_keywords location_keywords : string) :
  (calculate_relevance_score
     (Job (upper (title j)) (upper (company j)) (upper (location j))
          (upper (salary j)) (job_type j) (upper (summary j)) (url j)
          (source j) (scraped_at j) (search_term j) (search_location j)
          (salary_numeric j) (ai_analysis j))
     (upper search_keywords) (upper location_keywords)).1
  = (calculate_relevance_score j search_keywords location_keywords).1.
Proof.
  unfold calculate_relevance_score.
  cbn [title company location salary summary].
  rewrite !lower_upper, !split_terms_upper.
  rewrite parse_salary_to_number_upper.
  by destruct (Qlt_bool 0 (parse_salary_to_number (salary j))).
Qed.

End ScorerMore.

(** ** Frame operations, continued *)

Module FrameMore.
Import Frame FrameFacts.



End FrameMore.

(** ** The pipeline, continued *)

Module PipelineMore.
Import Text TextFacts CaseFacts Salary SalaryFacts Scorer ScorerFacts.
Import Frame FrameFacts FrameMore Pipeline Stages PipelineFacts ScorerMore.

Lemma tech_hits_bounds (hit : string → bool) techs : ∀ career_score,
  career_score
  <= foldl (λ career_score tech,
              if hit tech then career_score + 5 else career_score)
           career_score techs
  <= career_score + 5 * Z.of_nat (length techs).
Proof.
  induction techs as [|t techs IH]; intros career_score; simpl length; simpl foldl.
  - lia.
  - specialize (IH (if hit t then career_score + 5 else career_score)).
    destruct (hit t); lia.
Qed.

(** The career score lies between 0 and 95: at most 15 for the level, 5
    for each of the seven technologies, 20 for the company and 25 for the
    salary. *)
Lemma career_score_of_bounds j : 0 <= career_score_of j <= 95.
Proof.
  unfold career_score_of.
  set (level := if any_in ["senior"; "lead"; "principal"] (lower (title j))
                then 0 + 15
                else if any_in ["mid"; "intermediate"] (lower (title j))
                     then 0 + 10 else 0).
  assert (0 <= level <= 15) as Hlevel by (unfold level; repeat case_match; lia).
  pose proof (tech_hits_bounds
                (λ tech, contains tech (lower (title j))
                         || contains tech (lower (summary j)))
                modern_tech level) as Htech.
  change (Z.of_nat (length modern_tech)) with 7 in Htech.
  set (tech := foldl _ level modern_tech) in *.
  repeat case_match; lia.
Qed.

Lemma score_at_nonneg s v : score_at s = Some v → 0 <= v.
Proof.
  unfold score_at. destruct (strip_prefix "SCORE:" s) as [r|]; [|done].
  destruct (span_digits (lstrip r)) as [d rest].
  destruct d as [|c d]; [done|]. intros [= <-].
  apply (digits_val_nonneg (String c d)). lia.
Qed.

Lemma search_score_nonneg s v : search_score s = Some v → 0 <= v.
Proof.
  induction s as [|c s IH]; cbn [search_score].
  - destruct (score_at "") eqn:H; [|done]. intros [= <-].
    by eapply score_at_nonneg.
  - destruct (score_at (String c s)) eqn:H.
    + intros [= <-]. by eapply score_at_nonneg.
    + exact IH.
Qed.

Lemma ai_enhanced_relevance_scoring_nonneg kickoff j kw loc :
  0 <= (ai_enhanced_relevance_scoring kickoff j kw loc).1.
Proof.
  unfold ai_enhanced_relevance_scoring.
  destruct kickoff as [result|]; simpl.
  - destruct (search_score (upper result)) eqn:Hs; simpl.
    + by eapply search_score_nonneg.
    + apply calculate_relevance_score_nonneg.
  - apply calculate_relevance_score_nonneg.
Qed.

Lemma scored_nonneg ai jobs kw loc use_ai :
  Forall (λ r, 0 <= relevance_score r ∧ final_ai_score r = None)
         (scored ai jobs kw loc use_ai).
Proof.
  unfold scored. destruct use_ai.
  - apply Forall_lookup. intros i r. rewrite list_lookup_imap.
    destruct (cleaned jobs !! i); [|done]. intros [= <-]. split; [|done].
    apply ai_enhanced_relevance_scoring_nonneg.
  - apply Forall_fmap, Forall_true. intros j. split; [|done].
    apply calculate_relevance_score_nonneg.
Qed.

(** X9: in every row of the returned frame the relevance score is not
    negative, and the final score is at least six tenths of the relevance
    score and at most the relevance score plus 38; in particular no final
    score is negative. *)
Theorem ranked_scores_bounds (ai : ai_service) (jobs : list job)
    (search_keywords location_keywords : string) (use_ai : bool) :
  let out := (process_and_rank_jobs ai jobs search_keywords
                                    location_keywords use_ai).1 in
  Forall (λ r, 0 <= relevance_score r
               ∧ (inject_Z (relevance_score r) * (6 # 10) <= final_score r)%Q
               ∧ (final_score r <= inject_Z (relevance_score r) + 38)%Q
               ∧ (0 <= final_score r)%Q) out.
Proof.
  cbn zeta. rewrite process_and_rank_jobs_unfold.
  assert (∀ z, 0 <= z → (0 <= inject_Z z)%Q) as Hinj.
  { intros z Hz. change 0%Q with (inject_Z 0). by rewrite <- Zle_Qle. }
  destruct use_ai.
  - apply assign_range_Forall; [intros n r H; exact H|].
    apply sort_values_Forall, ai_enhanced_job_ranking_Forall.
    + intros n r H; exact H.
    + apply Forall_fmap.
      eapply Forall_impl; [apply Forall_take, scored_nonneg|].
      intros r [Hr _]. pose proof (career_score_of_bounds (rec r)) as [Hc0 Hc].
      apply Hinj in Hr as Hq. apply Hinj in Hc0.
      rewrite Zle_Qle in Hc. change (inject_Z 95) with 95%Q in Hc.
      split; [exact Hr|]. unfold final_score, enrich, blend. simpl.
      split_and!; lra.
    + apply Forall_fmap.
      eapply Forall_impl; [apply Forall_drop, scored_nonneg|].
      intros r [Hr _]. apply Hinj in Hr as Hq.
      split; [exact Hr|]. unfold final_score, keep_baseline. simpl.
      split_and!; lra.
  - apply assign_range_Forall; [intros n r H; exact H|].
    apply sort_values_Forall.
    eapply Forall_impl; [apply scored_nonneg|].
    intros r [Hr Hnone]. apply Hinj in Hr as Hq.
    split; [exact Hr|]. unfold final_score. rewrite Hnone. simpl.
    split_and!; lra.
Qed.

Lemma process_and_rank_jobs_length ai jobs kw loc use_ai :
  length (process_and_rank_jobs ai jobs kw loc use_ai).1
  = length (drop_duplicates jobs).
Proof.
  rewrite <- (length_fmap rec), process_and_rank_jobs_unfold.
  destruct use_ai.
  - rewrite (assign_range_fmap set_rank rec) by done.
    rewrite sort_values_perm, ai_enhanced_job_ranking_rec, scored_rec.
    unfold cleaned. by rewrite length_fmap.
  - rewrite (assign_range_fmap set_rank rec) by done.
    rewrite sort_values_perm, scored_rec.
    unfold cleaned. by rewrite length_fmap.
Qed.

(** Records whose keys are pairwise different and not yet seen are all
    kept. *)
Lemma drop_duplicates_from_id jobs : ∀ seen,
  NoDup (dedup_key <$> jobs) →
  (∀ k, k ∈ dedup_key <$> jobs → k ∉ seen) →
  drop_duplicates_from seen jobs = jobs.
Proof.
  induction jobs as [|j jobs IH]; intros seen Hnd Hseen; [done|].
  rewrite fmap_cons in Hnd, Hseen. apply NoDup_cons in Hnd as [Hj Hnd].
  cbn [drop_duplicates_from].
  rewrite decide_False by (apply Hseen; left).
  f_equal. apply IH; [done|].
  intros k Hk. rewrite not_elem_of_union, not_elem_of_singleton.
  split; [by intros ->|]. apply Hseen. by right.
Qed.

(** X10: deduplication is idempotent and leaves a collection without
    repeated (title, company) pairs as it is; the frame that
    [process_and_rank_jobs] returns has exactly one row for each distinct
    pair of the input. *)
Theorem drop_duplicates_idempotent_and_count (ai : ai_service)
    (jobs : list job) (search_keywords location_keywords : string)
    (use_ai : bool) :
  drop_duplicates (drop_duplicates jobs) = drop_duplicates jobs
  ∧ (NoDup (dedup_key <$> jobs) → drop_duplicates jobs = jobs)
  ∧ length (process_and_rank_jobs ai jobs search_keywords
                                  location_keywords use_ai).1
    = length (remove_dups (dedup_key <$> jobs)).
Proof.
  split_and!.
  - apply drop_duplicates_from_id; [apply drop_duplicates_from_NoDup|].
    intros k _. apply not_elem_of_empty.
  - intros Hnd. apply drop_duplicates_from_id; [done|].
    intros k _. apply not_elem_of_empty.
  - rewrite process_and_rank_jobs_length.
    rewrite <- (length_fmap dedup_key). apply Permutation_length.
    apply NoDup_Permutation.
    + apply drop_duplicates_from_NoDup.
    + apply NoDup_remove_dups.
    + intros k. rewrite elem_of_remove_dups. split.
      * intros Hk. apply list_elem_of_fmap in Hk as (j & -> & Hj).
        apply list_elem_of_fmap_2.
        by apply (sublist_subseteq _ _ (drop_duplicates_from_sublist jobs ∅)).
      * intros Hk. apply list_elem_of_fmap in Hk as (j & -> & Hj).
        destruct (drop_duplicates_from_covers jobs ∅ j Hj)
          as [?%elem_of_empty|]; done.
Qed.

Lemma drop_duplicates_idempotent_and_count_witness :
  drop_duplicates [Inputs.senior_clerk; Inputs.java_developer]
  = [Inputs.senior_clerk; Inputs.java_developer].
Proof.
  apply (drop_duplicates_idempotent_and_count
           Inputs.ai_down [Inputs.senior_clerk; Inputs.java_developer]
           "java" "" true).
  vm_compute. repeat constructor.
  - intros [[=] | ?%elem_of_nil]%elem_of_cons. done.
  - intros ?%elem_of_nil. done.
Defined.

Lemma ai_rank_assign_range start (l : list row) :
  ai_rank <$> assign_range set_ai_rank start l = Some <$> seq start (length l).
Proof.
  apply list_eq. intros i.
  rewrite !list_lookup_fmap, assign_range_lookup.
  destruct (l !! i) as [r|] eqn:Hi; simpl.
  - rewrite lookup_seq_lt by (by eapply lookup_lt_Some). done.
  - rewrite lookup_seq_ge by (by apply lookup_ge_None). done.
Qed.

(** X11: with the AI stages on, the [ai_rank] column of the returned frame
    holds each of 1, ..., [N] exactly once, [N] being the number of rows
    (it need not follow the final order). *)
Theorem ai_rank_dense (ai : ai_service) (jobs : list job)
    (search_keywords location_keywords : string) :
  let out := (process_and_rank_jobs ai jobs search_keywords
                                    location_keywords true).1 in
  ai_rank <$> out ≡ₚ Some <$> seq 1 (length out).
Proof.
  cbn zeta. rewrite process_and_rank_jobs_unfold.
  rewrite assign_range_length, sort_values_length.
  rewrite (assign_range_fmap set_rank ai_rank) by done.
  rewrite sort_values_perm.
  set (S := scored ai jobs search_keywords location_keywords true).
  unfold ai_enhanced_job_ranking.
  rewrite fmap_app, !ai_rank_assign_range, length_app, !assign_range_length.
  rewrite seq_app, fmap_app.
  by rewrite (Nat.add_comm 1 (length _)).
Qed.











End PipelineMore.

(** ** Search criteria *)

Module CriteriaFacts.
Import Text Criteria.

Lemma lstrip_head s :
  lstrip s = EmptyString
  ∨ ∃ c t, lstrip s = String c t ∧ is_space c = false.
Proof.
  induction s as [|c s IH]; [by left|]. simpl.
  destruct (is_space c) eqn:Hc; [exact IH|]. right. by exists c, s.
Qed.

Lemma rstrip_cons c t :
  is_space c = false → rstrip (String c t) = String c (rstrip t).
Proof. intros Hc. simpl. rewrite Hc. by destruct (rstrip t). Qed.

Lemma rstrip_idemp s : rstrip (rstrip s) = rstrip s.
Proof.
  induction s as [|c s IH]; [done|]. simpl.
  destruct (rstrip s) as [|c' t] eqn:Hr.
  - destruct (is_space c) eqn:Hc; [done|]. simpl. by rewrite Hc.
  - change (rstrip (String c (String c' t)))
      with (match rstrip (String c' t) with
            | EmptyString => if is_space c then EmptyString else String c EmptyString
            | String a u => String c (String a u)
            end).
    by rewrite IH.
Qed.

(** Trimming a trimmed text changes nothing. *)
Lemma strip_idemp s : strip (strip s) = strip s.
Proof.
  unfold strip. destruct (lstrip_head s) as [-> | (c & t & -> & Hc)]; [done|].
  rewrite (rstrip_cons c t Hc). cbn [lstrip]. rewrite Hc.
  rewrite <- (rstrip_cons c t Hc). apply rstrip_idemp.
Qed.

(** X14: the criteria that [get_search_criteria] returns are never empty
    and carry no white space at either end: a blank answer is replaced by
    "Software Developer", by "Remote", and for the keywords by the search
    term; any other answer is returned trimmed. *)
Theorem get_search_criteria_nonempty_trimmed (line1 line2 line3 : string) :
  let search_term := (get_search_criteria line1 line2 line3).1.1 in
  let location := (get_search_criteria line1 line2 line3).1.2 in
  let keywords := (get_search_criteria line1 line2 line3).2 in
  (search_term ≠ EmptyString ∧ location ≠ EmptyString ∧ keywords ≠ EmptyString)
  ∧ (strip search_term = search_term ∧ strip location = location
     ∧ strip keywords = keywords)
  ∧ (search_term = if String.eqb (strip line1) "" then "Software Developer"
                   else strip line1)
  ∧ (location = if String.eqb (strip line2) "" then "Remote" else strip line2)
  ∧ (keywords = if String.eqb (strip line3) "" then search_term
                else strip line3).
Proof.
  cbn zeta. unfold get_search_criteria. cbn [fst snd].
  destruct (String.eqb (strip line1) "") eqn:H1,
           (String.eqb (strip line2) "") eqn:H2,
           (String.eqb (strip line3) "") eqn:H3;
    rewrite ?String.eqb_neq in *;
    split_and!; try done; try apply strip_idemp.
Qed.

End CriteriaFacts.

(** ** The report *)

Module ReportFacts.
Import Text Salary SalaryFacts Frame FrameFacts Pipeline Stages PipelineFacts.
Import Report.

Lemma length_append s t :
  String.length (s +:+ t) = (String.length s + String.length t)%nat.
Proof.
  induction s as [|c s IH]; [done|].
  change (String c s +:+ t) with (String c (s +:+ t)). simpl. by rewrite IH.
Qed.

Lemma length_substring_le m : ∀ s, (String.length (String.substring 0 m s) ≤ m)%nat.
Proof.
  induction m as [|m IH]; intros [|c s]; simpl; try lia.
  specialize (IH s). lia.
Qed.

Lemma shorten_length n s : (String.length (shorten n s) ≤ n + 3)%nat.
Proof.
  unfold shorten. destruct (n <? String.length s)%nat eqn:Hn.
  - rewrite length_append. pose proof (length_substring_le n s). simpl. lia.
  - apply Nat.ltb_ge in Hn. lia.
Qed.

(** X15: the text cells of a printed row fit the widths of their columns:
    at most 30 characters for the title, 20 for the company, 15 for the
    location and 20 for the salary; a text within the limit of its cell
    (27, 17, 12, 17) is printed unchanged. *)
Theorem display_cells_fit (r : row) :
  let '(title_cell, company_cell, location_cell, salary_cell) := display_cells r in
  ((String.length title_cell ≤ 30)%nat ∧ (String.length company_cell ≤ 20)%nat
   ∧ (String.length location_cell ≤ 15)%nat
   ∧ (String.length salary_cell ≤ 20)%nat)
  ∧ ((String.length (title (rec r)) ≤ 27)%nat → title_cell = title (rec r))
  ∧ ((String.length (company (rec r)) ≤ 17)%nat → company_cell = company (rec r))
  ∧ ((String.length (location (rec r)) ≤ 12)%nat → location_cell = location (rec r))
  ∧ ((String.length (salary (rec r)) ≤ 17)%nat → salary_cell = salary (rec r)).
Proof.
  unfold display_cells.
  assert (∀ n s, (String.length s ≤ n)%nat → shorten n s = s) as Hshort.
  { intros n s Hs. unfold shorten.
    by rewrite (proj2 (Nat.ltb_ge n (String.length s)) Hs). }
  split_and!; try apply (shorten_length 27); try apply (shorten_length 17);
    try apply (shorten_length 12); apply Hshort.
Qed.

Lemma display_cells_fit_witness :
  (display_cells (new_row Inputs.java_developer 15)).1.1.1 = "Java Developer".
Proof.
  apply (display_cells_fit (new_row Inputs.java_developer 15)).
  vm_compute. lia.
Defined.

(** X16: the three salary tiers of the statistics (at least 120000, from
    80000 up to 120000, below 80000) split the jobs with a numeric salary:
    each such job is counted in exactly one tier. *)
Theorem salary_tiers_partition (ranked_jobs_df : list row) :
  (high_salary ranked_jobs_df + mid_salary ranked_jobs_df
   + entry_salary ranked_jobs_df
   = length (jobs_with_numeric_salary ranked_jobs_df))%nat.
Proof.
  unfold high_salary, mid_salary, entry_salary.
  induction (jobs_with_numeric_salary ranked_jobs_df) as [|r l IH]; [done|].
  cbn [List.filter]. unfold Qlt_bool in *.
  destruct (Qle_bool 120000 (salary_numeric_of r)) eqn:Ha,
           (Qle_bool 80000 (salary_numeric_of r)) eqn:Hb;
    cbn [negb andb length]; try lia.
  apply Qle_bool_iff in Ha.
  assert (Qle_bool 80000 (salary_numeric_of r) = true) as Hc; [|congruence].
  apply Qle_bool_iff. lra.
Qed.

Lemma ranked_salary_column ai jobs kw loc use_ai :
  Forall (λ r, salary_numeric (rec r)
               = Some (parse_salary_to_number (salary (rec r))))
         (process_and_rank_jobs ai jobs kw loc use_ai).1.
Proof.
  assert (rec <$> (process_and_rank_jobs ai jobs kw loc use_ai).1
          ≡ₚ cleaned jobs) as Hperm.
  { rewrite process_and_rank_jobs_unfold. destruct use_ai.
    - rewrite (assign_range_fmap set_rank rec) by done.
      by rewrite sort_values_perm, ai_enhanced_job_ranking_rec, scored_rec.
    - rewrite (assign_range_fmap set_rank rec) by done.
      by rewrite sort_values_perm, scored_rec. }
  assert (Forall (λ j, salary_numeric j
                       = Some (parse_salary_to_number (salary j)))
                 (rec <$> (process_and_rank_jobs ai jobs kw loc use_ai).1))
    as Hcol.
  { rewrite Hperm. unfold cleaned. apply Forall_fmap, Forall_true.
    by intros j. }
  by rewrite Forall_fmap in Hcol.
Qed.

Lemma filter_length_le {A} (p q : A → bool) l :
  Forall (λ x, p x = true → q x = true) l →
  (length (List.filter p l) ≤ length (List.filter q l))%nat.
Proof.
  induction 1 as [|x l Hx _ IH]; [done|]. simpl.
  destruct (p x); [rewrite Hx by done; simpl; lia|].
  destruct (q x); simpl; lia.
Qed.

(** X17: on the frame that [process_and_rank_jobs] returns, a job the
    statistics count as having a numeric salary is also counted as having
    salary information: the sentinel "Not specified" never has a positive
    value. *)
Theorem numeric_salary_has_salary_text (ai : ai_service) (jobs : list job)
    (search_keywords location_keywords : string) (use_ai : bool) :
  let ranked_jobs_df := (process_and_rank_jobs ai jobs search_keywords
                                               location_keywords use_ai).1 in
  (length (jobs_with_numeric_salary ranked_jobs_df)
   ≤ length (jobs_with_salary ranked_jobs_df))%nat
  ∧ Forall (λ r, salary (rec r) ≠ "Not specified"
                 ∧ (0 < salary_numeric_of r)%Q)
           (jobs_with_numeric_salary ranked_jobs_df).
Proof.
  cbn zeta.
  pose proof (ranked_salary_column ai jobs search_keywords location_keywords
                use_ai) as Hcol.
  set (df := (process_and_rank_jobs ai jobs search_keywords
                                    location_keywords use_ai).1) in *.
  assert (Forall (λ r, Qlt_bool 0 (salary_numeric_of r) = true →
                       negb (String.eqb (salary (rec r)) "Not specified") = true)
                 df) as Himp.
  { eapply Forall_impl; [exact Hcol|]. intros r Hr.
    unfold salary_numeric_of. rewrite Hr. simpl.
    destruct (String.eqb_spec (salary (rec r)) "Not specified") as [-> | ?];
      [|done].
    intros H. vm_compute in H. discriminate. }
  split.
  - unfold jobs_with_numeric_salary, jobs_with_salary.
    by apply filter_length_le.
  - unfold jobs_with_numeric_salary. apply Forall_forall. intros r Hr.
    apply list_elem_of_In, filter_In in Hr as [Hin Hpos].
    apply list_elem_of_In in Hin.
    rewrite Forall_forall in Himp. specialize (Himp r Hin Hpos).
    split; [|by apply Qlt_bool_iff].
    intros Heq. rewrite Heq in Himp. discriminate.
Qed.

End ReportFacts.

(** ** Source adapters *)

Module PaginationFacts.
Import Text Adapters Pagination.

Lemma run_pages_app outcome budget : ∀ page jobs,
  run_pages outcome page budget jobs
  = jobs ++ run_pages outcome page budget [].
Proof.
  induction budget as [|budget IH]; intros page jobs; cbn [run_pages].
  - by rewrite app_nil_r.
  - destruct (outcome page) as [| |[|j l]]; rewrite ?app_nil_r; try done.
    rewrite (IH _ (jobs ++ j :: l)), (IH _ ([] ++ j :: l)).
    by rewrite app_assoc.
Qed.

(** The loop returns the records of the pages before the first page that
    ends it, in page order. *)
Lemma run_pages_closed outcome budget : ∀ page jobs k,
  (k ≤ budget)%nat →
  (∀ p, (page ≤ p < page + k)%nat → passes outcome p = true) →
  ((k < budget)%nat → passes outcome (page + k) = false) →
  run_pages outcome page budget jobs
  = jobs ++ concat (records_of outcome <$> seq page k).
Proof.
  induction budget as [|budget IH]; intros page jobs k Hk Hpass Hstop.
  - assert (k = 0%nat) as -> by lia. simpl. by rewrite app_nil_r.
  - destruct k as [|k].
    + simpl. rewrite app_nil_r. specialize (Hstop ltac:(lia)).
      rewrite Nat.add_0_r in Hstop. unfold passes in Hstop.
      by destruct (outcome page) as [| |[|j l]].
    + pose proof (Hpass page ltac:(lia)) as Hp.
      cbn [run_pages seq]. rewrite fmap_cons. cbn [concat].
      unfold passes in Hp. unfold records_of at 1.
      assert (run_pages outcome (S page) budget jobs
              = jobs ++ concat (records_of outcome <$> seq (S page) k))
        as Hrest.
      { apply IH; [lia|intros; apply Hpass; lia|].
        intros Hlt. replace (S page + k)%nat with (page + S k)%nat by lia.
        apply Hstop. lia. }
      destruct (outcome page) as [| |[|j l]]; try done.
      rewrite (run_pages_app _ _ _ (jobs ++ j :: l)).
      rewrite (run_pages_app _ _ _ jobs) in Hrest.
      apply app_inv_head in Hrest. rewrite Hrest. by rewrite <- app_assoc.
Qed.

Lemma run_pages_Forall (P : job → Prop) outcome budget : ∀ page jobs,
  (∀ p, Forall P (records_of outcome p)) →
  Forall P jobs → Forall P (run_pages outcome page budget jobs).
Proof.
  induction budget as [|budget IH]; intros page jobs Hrec Hjobs; [done|].
  cbn [run_pages]. specialize (Hrec page) as Hp. unfold records_of in Hp.
  destruct (outcome page) as [| |[|j l]]; try done; apply IH; try done.
  by apply Forall_app.
Qed.

Lemma run_pages_prefix outcome extra budget : ∀ page jobs,
  run_pages outcome page budget jobs
  `prefix_of` run_pages outcome page (budget + extra) jobs.
Proof.
  induction budget as [|budget IH]; intros page jobs.
  - cbn [Nat.add run_pages]. rewrite (run_pages_app _ extra).
    by apply prefix_app_r.
  - cbn [Nat.add run_pages].
    by destruct (outcome page) as [| |[|j l]].
Qed.

Lemma run_pages_length outcome (c : nat) budget : ∀ page jobs,
  (∀ p, (length (records_of outcome p) ≤ c)%nat) →
  (length (run_pages outcome page budget jobs) ≤ length jobs + c * budget)%nat.
Proof.
  induction budget as [|budget IH]; intros page jobs Hc; cbn [run_pages].
  - lia.
  - specialize (Hc page) as Hp. unfold records_of in Hp.
    destruct (outcome page) as [| |[|j l]]; try lia.
    + specialize (IH (S page) jobs Hc). lia.
    + specialize (IH (S page) (jobs ++ j :: l) Hc).
      rewrite length_app in IH. lia.
Qed.

(** The four loops are instances of the shared one. *)

Lemma linkedin_pages_run fetch st loc budget : ∀ page jobs,
  linkedin_pages fetch st loc page budget jobs
  = run_pages (linkedin_step fetch st loc) page budget jobs.
Proof.
  induction budget as [|budget IH]; intros page jobs; [done|].
  cbn [linkedin_pages run_pages]. unfold linkedin_step at 1.
  destruct (fetch page) as [|[|c cs]]; [apply IH|done|]. cbn zeta.
  destruct (page_records _ (c :: cs)) as [|j l];
    [by rewrite app_nil_r | apply IH].
Qed.

Lemma glassdoor_pages_run fetch st loc budget : ∀ page jobs,
  glassdoor_pages fetch st loc page budget jobs
  = run_pages (glassdoor_step fetch st loc) page budget jobs.
Proof.
  induction budget as [|budget IH]; intros page jobs; [done|].
  cbn [glassdoor_pages run_pages]. unfold glassdoor_step at 1.
  destruct (fetch page) as [|[|c cs]]; [done|done|]. cbn zeta.
  destruct (page_records _ (c :: cs)) as [|j l];
    [by rewrite app_nil_r | apply IH].
Qed.

Lemma indeed_pages_run load st loc budget : ∀ page jobs,
  indeed_pages load st loc page budget jobs
  = run_pages (indeed_step load st loc) page budget jobs.
Proof.
  induction budget as [|budget IH]; intros page jobs; [done|].
  cbn [indeed_pages run_pages]. unfold indeed_step at 1.
  destruct (load page) as [| |[|c cs]]; [apply IH|done|done|]. cbn zeta.
  destruct (page_records _ (c :: cs)) as [|j l];
    [by rewrite app_nil_r | apply IH].
Qed.

Lemma board_pages_run source_name site load st loc budget : ∀ page jobs,
  board_pages source_name site load st loc page budget jobs
  = run_pages (board_step source_name site load st loc) page budget jobs.
Proof.
  induction budget as [|budget IH]; intros page jobs; [done|].
  cbn [board_pages run_pages]. unfold board_step at 1.
  destruct (load page) as [| |cards]; [done|apply IH|]. cbn zeta.
  destruct (page_records _ (take 15 cards)) as [|j l];
    [by rewrite app_nil_r | apply IH].
Qed.

Lemma page_records_Forall (P : job → Prop) job_data job_cards :
  (∀ x, P (job_data x)) → Forall P (page_records job_data job_cards).
Proof.
  intros HP. apply Forall_forall. intros j Hj. unfold page_records in Hj.
  apply list_elem_of_omap in Hj as ([x|] & _ & Hx); [|done].
  injection Hx as <-. apply HP.
Qed.

Lemma page_records_length job_data job_cards :
  (length (page_records job_data job_cards) ≤ length job_cards)%nat.
Proof.
  unfold page_records.
  induction job_cards as [|[x|] job_cards IH]; [done| |].
  - change (omap (λ card, job_data <$> card) (Some x :: job_cards))
      with (job_data x :: omap (λ card, job_data <$> card) job_cards).
    simpl. lia.
  - change (omap (λ card, job_data <$> card) (None :: job_cards))
      with (omap (λ card, job_data <$> card) job_cards).
    simpl. lia.
Qed.

End PaginationFacts.

Module AdaptersFacts.
Import Text Adapters Pagination PaginationFacts.
Import Orchestrator OrchestratorFacts Summary OrchestratorMore PipelineMore.

Lemma run_pages_result outcome (page_jobs : nat → list job)
    (goes_on : nat → Prop) (first max_pages k : nat) :
  (∀ p, records_of outcome p = page_jobs p) →
  (∀ p, passes outcome p = true ↔ goes_on p) →
  (k ≤ max_pages)%nat →
  (∀ p, (first ≤ p < first + k)%nat → goes_on p) →
  ((k < max_pages)%nat → ¬ goes_on (first + k)%nat) →
  run_pages outcome first max_pages [] = concat (page_jobs <$> seq first k).
Proof.
  intros Hrec Hpasses Hk Hgo Hstop.
  rewrite (run_pages_closed outcome max_pages first [] k Hk).
  - cbn [app]. f_equal. clear -Hrec. generalize first.
    induction k as [|k IH]; intros page; [done|].
    cbn [seq]. rewrite !fmap_cons. by rewrite Hrec, IH.
  - intros p Hp. by apply Hpasses, Hgo.
  - intros Hlt. specialize (Hstop Hlt).
    destruct (passes outcome (first + k)) eqn:E; [|done].
    by apply Hpasses in E.
Qed.

Ltac passes_cases :=
  split;
  [ intros; first [done | by left | by right]
  | first [ intros [H | H]; first [done | by destruct H]
          | intros H; first [done | by destruct H] ] ].

(** X18: LinkedIn pagination.  A page whose request raises is passed
    over; the first page that yields no record ends the loop.  The result
    is the records of the pages before that page (or of all [max_pages]
    pages), in page order. *)
Theorem linkedin_pages_result (fetch : nat → response) (term place : string)
    (max_pages k : nat) :
  let page_jobs p :=
    match fetch p with
    | RequestRaises => []
    | Response job_cards =>
        page_records (λ x, linkedin_job_data x term place) job_cards
    end in
  (k ≤ max_pages)%nat →
  (∀ p, (p < k)%nat → fetch p = RequestRaises ∨ page_jobs p ≠ []) →
  ((k < max_pages)%nat → fetch k ≠ RequestRaises ∧ page_jobs k = []) →
  scrape_linkedin_comprehensive fetch term place max_pages
  = concat (page_jobs <$> seq 0 k).
Proof.
  intros page_jobs Hk Hgo Hstop. unfold scrape_linkedin_comprehensive.
  rewrite linkedin_pages_run.
  apply (run_pages_result _ page_jobs
           (λ p, fetch p = RequestRaises ∨ page_jobs p ≠ [])); try done.
  - intros p. unfold records_of, linkedin_step, page_jobs.
    by destruct (fetch p) as [|[|c cs]].
  - intros p. unfold passes, linkedin_step, page_jobs.
    destruct (fetch p) as [|[|c cs]]; [passes_cases..|].
    destruct (page_records _ (c :: cs)); passes_cases.
  - intros p Hp. apply Hgo. lia.
  - intros Hlt [H | H]; by destruct (Hstop Hlt).
Qed.

Lemma linkedin_pages_result_witness :
  scrape_linkedin_comprehensive Pages.flaky_site "data" "Austin" 5
  = [linkedin_job_data Pages.card "data" "Austin"].
Proof.
  apply (linkedin_pages_result Pages.flaky_site "data" "Austin" 5 2).
  - lia.
  - intros [|[|p]] Hp; [by left | right; vm_compute; discriminate | lia].
  - intros _. split; [discriminate | reflexivity].
Defined.

(** X19: Indeed pagination.  When [setup_driver] raises, the call raises.
    Otherwise a page that raises is passed over, and the first page whose
    wait times out or that yields no record ends the loop; the result is
    the records of the pages before it, in page order. *)
Theorem indeed_pages_result (setup_driver : bool) (load : nat → page_load)
    (term place : string) (max_pages k : nat) :
  let page_jobs p :=
    match load p with
    | Loaded job_cards =>
        page_records (λ x, indeed_job_data x term place) job_cards
    | _ => []
    end in
  (k ≤ max_pages)%nat →
  (∀ p, (p < k)%nat → load p = LoadRaises ∨ page_jobs p ≠ []) →
  ((k < max_pages)%nat → load k ≠ LoadRaises ∧ page_jobs k = []) →
  scrape_indeed_comprehensive setup_driver load term place max_pages
  = if setup_driver then Some (concat (page_jobs <$> seq 0 k)) else None.
Proof.
  intros page_jobs Hk Hgo Hstop. unfold scrape_indeed_comprehensive.
  destruct setup_driver; [|done]. f_equal.
  rewrite indeed_pages_run.
  apply (run_pages_result _ page_jobs
           (λ p, load p = LoadRaises ∨ page_jobs p ≠ [])); try done.
  - intros p. unfold records_of, indeed_step, page_jobs.
    by destruct (load p) as [| |[|c cs]].
  - intros p. unfold passes, indeed_step, page_jobs.
    destruct (load p) as [| |[|c cs]]; [passes_cases..|].
    destruct (page_records _ (c :: cs)); passes_cases.
  - intros p Hp. apply Hgo. lia.
  - intros Hlt [H | H]; by destruct (Hstop Hlt).
Qed.

Lemma indeed_pages_result_witness :
  scrape_indeed_comprehensive true Pages.failing_first "data" "Austin" 10
  = Some [indeed_job_data Pages.card "data" "Austin"].
Proof.
  apply (indeed_pages_result true Pages.failing_first "data" "Austin" 10 2).
  - lia.
  - intros [|[|p]] Hp; [by left | right; vm_compute; discriminate | lia].
  - intros _. split; [discriminate | reflexivity].
Defined.

(** X20: Glassdoor pagination, whose pages are numbered from 1.  One
    handler surrounds the whole loop: the first page that raises or yields
    no record ends it, and the records of the pages before it are
    returned. *)
Theorem glassdoor_pages_result (fetch : nat → response) (term place : string)
    (max_pages k : nat) :
  let page_jobs p :=
    match fetch p with
    | RequestRaises => []
    | Response job_cards =>
        page_records (λ x, glassdoor_job_data x term place) job_cards
    end in
  (k ≤ max_pages)%nat →
  (∀ p, (1 ≤ p ≤ k)%nat → page_jobs p ≠ []) →
  ((k < max_pages)%nat → page_jobs (S k) = []) →
  scrape_glassdoor_comprehensive fetch term place max_pages
  = concat (page_jobs <$> seq 1 k).
Proof.
  intros page_jobs Hk Hgo Hstop. unfold scrape_glassdoor_comprehensive.
  rewrite glassdoor_pages_run.
  apply (run_pages_result _ page_jobs (λ p, page_jobs p ≠ [])); try done.
  - intros p. unfold records_of, glassdoor_step, page_jobs.
    by destruct (fetch p) as [|[|c cs]].
  - intros p. unfold passes, glassdoor_step, page_jobs.
    destruct (fetch p) as [|[|c cs]]; [passes_cases..|].
    destruct (page_records _ (c :: cs)); passes_cases.
  - intros p Hp. apply Hgo. lia.
  - intros Hlt H. by apply H, Hstop.
Qed.

Lemma glassdoor_pages_result_witness :
  scrape_glassdoor_comprehensive Pages.broken_site "data" "Austin" 3
  = [glassdoor_job_data Pages.card "data" "Austin"].
Proof.
  apply (glassdoor_pages_result Pages.broken_site "data" "Austin" 3 1).
  - lia.
  - intros [|[|p]] Hp; [lia | vm_compute; discriminate | lia].
  - intros _. reflexivity.
Defined.

(** X21: the pagination of Monster, ZipRecruiter and CareerBuilder, which
    are [board_pages] at their source name and site.  A page whose wait
    times out is passed over; the first page that raises or yields no
    record among its first fifteen cards ends the loop; the result is the
    records of the pages before it, read from at most fifteen cards each. *)
Theorem board_pages_result (source_name site : string) (load : nat → page_load)
    (term place : string) (max_pages k : nat) :
  let page_jobs p :=
    match load p with
    | Loaded job_cards =>
        page_records (λ x, board_job_data source_name site x term place)
                     (take 15 job_cards)
    | _ => []
    end in
  (k ≤ max_pages)%nat →
  (∀ p, (p < k)%nat → load p = WaitTimeout ∨ page_jobs p ≠ []) →
  ((k < max_pages)%nat → load k ≠ WaitTimeout ∧ page_jobs k = []) →
  board_pages source_name site load term place 0 max_pages []
  = concat (page_jobs <$> seq 0 k).
Proof.
  intros page_jobs Hk Hgo Hstop. rewrite board_pages_run.
  apply (run_pages_result _ page_jobs
           (λ p, load p = WaitTimeout ∨ page_jobs p ≠ [])); try done.
  - intros p. unfold records_of, board_step, page_jobs.
    by destruct (load p) as [| |cards].
  - intros p. unfold passes, board_step, page_jobs.
    destruct (load p) as [| |cards]; [passes_cases..|].
    destruct (page_records _ (take 15 cards)); passes_cases.
  - intros p Hp. apply Hgo. lia.
  - intros Hlt [H | H]; by destruct (Hstop Hlt).
Qed.

Lemma board_pages_result_witness :
  scrape_monster_comprehensive Pages.timeout_first "data" "Austin" 3
  = [board_job_data "Monster" "https://www.monster.com" Pages.card
                    "data" "Austin"].
Proof.
  apply (board_pages_result "Monster" "https://www.monster.com"
           Pages.timeout_first "data" "Austin" 3 2).
  - lia.
  - intros [|[|p]] Hp; [by left | right; vm_compute; discriminate | lia].
  - intros _. split; [discriminate | reflexivity].
Defined.

(** The stamp of a record: its source name and the criteria of the call. *)
Lemma indeed_stamped load term place page budget jobs :
  let stamp j := source j = "Indeed" ∧ search_term j = term
                 ∧ search_location j = place in
  Forall stamp jobs →
  Forall stamp (indeed_pages load term place page budget jobs).
Proof.
  intros stamp Hjobs. rewrite indeed_pages_run.
  apply run_pages_Forall; [|done]. intros p.
  unfold records_of, indeed_step.
  destruct (load p) as [| |[|c cs]]; try done.
  by apply page_records_Forall.
Qed.

Lemma linkedin_stamped fetch term place page budget jobs :
  let stamp j := source j = "LinkedIn" ∧ search_term j = term
                 ∧ search_location j = place in
  Forall stamp jobs →
  Forall stamp (linkedin_pages fetch term place page budget jobs).
Proof.
  intros stamp Hjobs. rewrite linkedin_pages_run.
  apply run_pages_Forall; [|done]. intros p.
  unfold records_of, linkedin_step.
  destruct (fetch p) as [|[|c cs]]; try done.
  by apply page_records_Forall.
Qed.

Lemma glassdoor_stamped fetch term place page budget jobs :
  let stamp j := source j = "Glassdoor" ∧ search_term j = term
                 ∧ search_location j = place in
  Forall stamp jobs →
  Forall stamp (glassdoor_pages fetch term place page budget jobs).
Proof.
  intros stamp Hjobs. rewrite glassdoor_pages_run.
  apply run_pages_Forall; [|done]. intros p.
  unfold records_of, glassdoor_step.
  destruct (fetch p) as [|[|c cs]]; try done.
  by apply page_records_Forall.
Qed.

Lemma board_stamped source_name site load term place page budget jobs :
  let stamp j := source j = source_name ∧ search_term j = term
                 ∧ search_location j = place in
  Forall stamp jobs →
  Forall stamp (board_pages source_name site load term place page budget jobs).
Proof.
  intros stamp Hjobs. rewrite board_pages_run.
  apply run_pages_Forall; [|done]. intros p.
  unfold records_of, board_step.
  destruct (load p) as [| |cards]; try done.
  by apply page_records_Forall.
Qed.

(** X22: every record an adapter returns carries the adapter's own source
    name and the search term and location of the call; Indeed's call
    raises only when [setup_driver] does. *)
Theorem adapter_records_stamped (term place : string) (max_pages : nat) :
  let stamped name jobs :=
    Forall (λ j, source j = name ∧ search_term j = term
                 ∧ search_location j = place) jobs in
  (∀ setup_driver load,
     match scrape_indeed_comprehensive setup_driver load term place max_pages
     with
     | Some jobs => stamped "Indeed" jobs
     | None => setup_driver = false
     end)
  ∧ (∀ fetch, stamped "LinkedIn"
                (scrape_linkedin_comprehensive fetch term place max_pages))
  ∧ (∀ fetch, stamped "Glassdoor"
                (scrape_glassdoor_comprehensive fetch term place max_pages))
  ∧ (∀ load, stamped "Monster"
               (scrape_monster_comprehensive load term place max_pages))
  ∧ (∀ load, stamped "ZipRecruiter"
               (scrape_ziprecruiter_comprehensive load term place max_pages))
  ∧ (∀ load, stamped "CareerBuilder"
               (scrape_careerbuilder_comprehensive load term place max_pages)).
Proof.
  cbn zeta. split_and!.
  - intros [] load; [|done]. by apply indeed_stamped.
  - intros fetch. by apply linkedin_stamped.
  - intros fetch. by apply glassdoor_stamped.
  - intros load. by apply board_stamped.
  - intros load. by apply board_stamped.
  - intros load. by apply board_stamped.
Qed.

(** X23: a larger page budget only appends: what an adapter returns with
    [max_pages] pages is a prefix of what it returns with more. *)
Theorem larger_budget_only_appends (term place : string)
    (max_pages extra : nat) :
  (∀ setup_driver load,
     match scrape_indeed_comprehensive setup_driver load term place max_pages,
           scrape_indeed_comprehensive setup_driver load term place
                                       (max_pages + extra)
     with
     | Some jobs, Some jobs' => jobs `prefix_of` jobs'
     | None, None => setup_driver = false
     | _, _ => False
     end)
  ∧ (∀ fetch,
       scrape_linkedin_comprehensive fetch term place max_pages
       `prefix_of` scrape_linkedin_comprehensive fetch term place
                                                 (max_pages + extra))
  ∧ (∀ fetch,
       scrape_glassdoor_comprehensive fetch term place max_pages
       `prefix_of` scrape_glassdoor_comprehensive fetch term place
                                                  (max_pages + extra))
  ∧ (∀ load,
       scrape_monster_comprehensive load term place max_pages
       `prefix_of` scrape_monster_comprehensive load term place
                                                (max_pages + extra))
  ∧ (∀ load,
       scrape_ziprecruiter_comprehensive load term place max_pages
       `prefix_of` scrape_ziprecruiter_comprehensive load term place
                                                     (max_pages + extra))
  ∧ (∀ load,
       scrape_careerbuilder_comprehensive load term place max_pages
       `prefix_of` scrape_careerbuilder_comprehensive load term place
                                                      (max_pages + extra)).
Proof.
  split_and!.
  - intros [] load; [|done]. unfold scrape_indeed_comprehensive.
    rewrite !indeed_pages_run. apply run_pages_prefix.
  - intros fetch. unfold scrape_linkedin_comprehensive.
    rewrite !linkedin_pages_run. apply run_pages_prefix.
  - intros fetch. unfold scrape_glassdoor_comprehensive.
    rewrite !glassdoor_pages_run. apply run_pages_prefix.
  - intros load. unfold scrape_monster_comprehensive.
    rewrite !board_pages_run. apply run_pages_prefix.
  - intros load. unfold scrape_ziprecruiter_comprehensive.
    rewrite !board_pages_run. apply run_pages_prefix.
  - intros load. unfold scrape_careerbuilder_comprehensive.
    rewrite !board_pages_run. apply run_pages_prefix.
Qed.

Lemma strip_prefix_append p : ∀ s t rest,
  strip_prefix p s = Some rest →
  strip_prefix p (s +:+ t) = Some (rest +:+ t).
Proof.
  induction p as [|a p IH]; intros s t rest H.
  - destruct s; cbn [strip_prefix] in *; by injection H as <-.
  - destruct s as [|b s]; [done|].
    change (String b s +:+ t) with (String b (s +:+ t)).
    cbn [strip_prefix] in *. destruct (Ascii.eqb a b); [by apply IH|done].
Qed.

Lemma board_pages_bounded source_name site load term place max_pages :
  is_Some (strip_prefix "http" site) →
  let jobs := board_pages source_name site load term place 0 max_pages [] in
  (length jobs ≤ 15 * max_pages)%nat
  ∧ Forall (λ j, is_Some (strip_prefix "http" (url j))) jobs.
Proof.
  intros [rest Hsite]. cbn zeta. rewrite board_pages_run. split.
  - pose proof (run_pages_length
                  (board_step source_name site load term place) 15
                  max_pages 0 []) as H.
    cbn [length Nat.add] in H. apply H. intros p.
    unfold records_of, board_step.
    destruct (load p) as [| |cards]; cbn [length]; try lia.
    etrans; [apply page_records_length|].
    rewrite length_take. lia.
  - apply run_pages_Forall; [|done]. intros p.
    unfold records_of, board_step.
    destruct (load p) as [| |cards]; try done.
    apply page_records_Forall. intros x. cbn [board_job_data url].
    destruct (strip_prefix "http" (x_job_link x)) eqn:Hlink; [by eexists|].
    rewrite (strip_prefix_append _ _ _ _ Hsite). by eexists.
Qed.

(** X24: Monster, ZipRecruiter and CareerBuilder read at most fifteen cards
    of a page, so they return at most [15 * max_pages] records; the url of
    each record is absolute: a link that does not start with "http" is
    prefixed with the site. *)
Theorem board_records_bounded_absolute (load : nat → page_load)
    (term place : string) (max_pages : nat) :
  Forall (λ jobs, (length jobs ≤ 15 * max_pages)%nat
                  ∧ Forall (λ j, is_Some (strip_prefix "http" (url j))) jobs)
         [scrape_monster_comprehensive load term place max_pages;
          scrape_ziprecruiter_comprehensive load term place max_pages;
          scrape_careerbuilder_comprehensive load term place max_pages].
Proof.
  repeat apply Forall_cons_2; [..|apply Forall_nil_2];
    by apply board_pages_bounded.
Qed.

Lemma first_source_stamped name jobs :
  Forall (λ j, source j = name) jobs →
  first_source (Returned jobs) = None
  ∨ first_source (Returned jobs) = Some name.
Proof.
  intros H. destruct H as [|j0 jobs Hj0 _]; [by left|right].
  simpl. by rewrite Hj0.
Qed.

Lemma omap_cons_sublist {A B} (f : A → option B) x l name names :
  f x = None ∨ f x = Some name →
  omap f l `sublist_of` names →
  omap f (x :: l) `sublist_of` name :: names.
Proof.
  intros Hx Hl.
  change (omap f (x :: l))
    with (match f x with Some y => y :: omap f l | None => omap f l end).
  destruct Hx as [-> | ->]; [by apply sublist_cons | by apply sublist_skip].
Qed.

Lemma Forall_source {P : job → Prop} name jobs :
  Forall (λ j, source j = name ∧ P j) jobs →
  Forall (λ j, source j = name) jobs.
Proof. intros H. eapply Forall_impl; [exact H|]. by intros j [? _]. Qed.

(** The keys under which the six submitted futures are filed. *)
Lemma submitted_sources (w : sites) (term place : string) :
  omap first_source (submitted w term place)
  `sublist_of` ["Indeed"; "LinkedIn"; "Glassdoor"; "Monster"; "ZipRecruiter";
                "CareerBuilder"].
Proof.
  unfold submitted. repeat apply omap_cons_sublist; [..|done].
  - unfold scrape_indeed_comprehensive.
    destruct (indeed_setup w); [|by left].
    eapply first_source_stamped, Forall_source. by apply indeed_stamped.
  - eapply first_source_stamped, Forall_source. by apply linkedin_stamped.
  - eapply first_source_stamped, Forall_source. by apply glassdoor_stamped.
  - eapply first_source_stamped, Forall_source. by apply board_stamped.
  - eapply first_source_stamped, Forall_source. by apply board_stamped.
  - eapply first_source_stamped, Forall_source. by apply board_stamped.
Qed.

(** X25: over the six adapters the summary is exact: in whatever order
    the futures complete, and whatever the sites and the API sources
    deliver, the total that [scrape_all_sources] prints is the number of
    records it returns. *)
Theorem summary_total_is_exact (w : sites) (term place : string)
    (completed : list future) (api_jobs : list job) :
  completed ≡ₚ submitted w term place →
  total_jobs (scrape_all_sources_state completed api_jobs).2
  = length (Orchestrator.scrape_all_sources completed api_jobs).
Proof.
  intros Hperm. unfold Orchestrator.scrape_all_sources.
  pose proof (submitted_sources w term place) as Hsub.
  assert (NoDup ["Indeed"; "LinkedIn"; "Glassdoor"; "Monster"; "ZipRecruiter";
                 "CareerBuilder"]) as Hnd.
  { refine (bool_decide_unpack _ _). vm_compute. exact I. }
  apply summary_total_eq.
  - rewrite Hperm. by eapply sublist_NoDup.
  - rewrite Hperm. intros Hin.
    pose proof (sublist_subseteq _ _ Hsub _ Hin) as Hapi.
    revert Hapi. refine (bool_decide_unpack _ _). vm_compute. exact I.
Qed.

Lemma summary_total_is_exact_witness :
  let completed := reverse (submitted Pages.run "data" "Austin") in
  total_jobs (scrape_all_sources_state completed [Inputs.cloud_engineer]).2
  = length (Orchestrator.scrape_all_sources completed [Inputs.cloud_engineer]).
Proof.
  apply (summary_total_is_exact Pages.run "data" "Austin").
  apply reverse_Permutation.
Defined.

(** X26: [scrape_all_sources] over the six adapters returns the records
    of the adapters and of the API sources, each as many times as it was
    delivered, in whatever order the futures complete; when Indeed's
    [setup_driver] raises, only Indeed's records are missing. *)
Theorem scrape_all_sources_over_adapters (w : sites) (term place : string)
    (completed : list future) (api_jobs : list job) :
  completed ≡ₚ submitted w term place →
  Orchestrator.scrape_all_sources completed api_jobs
  ≡ₚ default [] (scrape_indeed_comprehensive (indeed_setup w) (indeed_site w)
                                             term place 10)
     ++ scrape_linkedin_comprehensive (linkedin_site w) term place 5
     ++ scrape_glassdoor_comprehensive (glassdoor_site w) term place 3
     ++ scrape_monster_comprehensive (monster_site w) term place 3
     ++ scrape_ziprecruiter_comprehensive (ziprecruiter_site w) term place 3
     ++ scrape_careerbuilder_comprehensive (careerbuilder_site w) term place 3
     ++ api_jobs.
Proof.
  intros Hperm. rewrite scrape_all_sources_eq.
  rewrite (returned_records_perm _ _ Hperm). unfold submitted.
  destruct (scrape_indeed_comprehensive _ _ _ _ _) as [jobs|];
    cbn [omap list_omap result concat default app];
    by rewrite ?app_nil_r, <- ?app_assoc.
Qed.

Lemma scrape_all_sources_over_adapters_witness :
  Orchestrator.scrape_all_sources
    (reverse (submitted Pages.run "data" "Austin")) []
  ≡ₚ [linkedin_job_data Pages.card "data" "Austin";
      glassdoor_job_data Pages.card "data" "Austin";
      board_job_data "Monster" "https://www.monster.com" Pages.card
                     "data" "Austin";
      board_job_data "ZipRecruiter" "https://www.ziprecruiter.com" Pages.card
                     "data" "Austin";
      board_job_data "CareerBuilder" "https://www.careerbuilder.com" Pages.card
                     "data" "Austin"].
Proof.
  apply (scrape_all_sources_over_adapters Pages.run "data" "Austin").
  apply reverse_Permutation.
Defined.

End AdaptersFacts.
